(** * AceStreamScraper (ipfs_scraper.py): a shallow embedding and its properties

    The development follows the four stages of the script: fetch with
    retry, regex extraction from the [linksData] script, deduplication by
    identifier, and the two playlist writers, plus the [main] driver.

    Modelling conventions.
    - A Python [str] is a [text], a list of characters; a character is a
      code point below 256 (type [ascii]).  The character classes [\s],
      [\w], [\d] and [.] are the ones of Python's [re] module on [str]
      patterns, restricted to that range.
    - The regular expressions of the source are kept as syntax trees and
      run by a backtracking matcher with the priorities of [re] (greedy
      and lazy repetition, leftmost match, non-overlapping [finditer]).
    - The network and the HTML parser are outside the script; they are the
      two fields of an environment [env].  Either may fail: a request may
      raise, and so may the parser on a response.  Logging is not modelled.
    - [self] is a record threaded through the methods; the file system,
      the console and the history of requests form the [world].
    - A file name stands for the file it designates: the files of the world
      are keyed by the name as written, two names are two files, and
      [open(filename, "w")] is taken to succeed.  What the operating system
      does with relative paths, links or a missing directory is outside the
      model. *)

From Stdlib Require Import Ascii String ZArith Lia Sorted.
From stdpp Require Import base list gmap strings pretty.

Local Open Scope Z_scope.
#[local] Set Warnings "-clear-no-such-hyp".

(** ** Text *)

Definition text := list ascii.

Definition str (s : string) : text := list_ascii_of_string s.

Definition code (c : ascii) : N := N_of_ascii c.

Definition chr_eqb (a b : ascii) : bool := Ascii.eqb a b.

Definition dquote : ascii := Ascii.ascii_of_nat 34.

Definition apostrophe : ascii := Ascii.ascii_of_nat 39.

(** [qstr s] is [s] with every apostrophe replaced by a double quote: the
    way the literals that contain double quotes are written below. *)
Definition qstr (s : string) : text :=
  map (λ c, if chr_eqb c apostrophe then dquote else c) (str s).

(** ** Character classes of [re] (str patterns, no flags) *)

Definition is_space (c : ascii) : bool :=
  let n := code c in
  (((9 <=? n) && (n <=? 13)) || ((28 <=? n) && (n <=? 32))
   || (n =? 133) || (n =? 160))%N.

Definition is_digit (c : ascii) : bool :=
  let n := code c in ((48 <=? n) && (n <=? 57))%N.

Definition is_word (c : ascii) : bool :=
  let n := code c in
  (((48 <=? n) && (n <=? 57)) || ((65 <=? n) && (n <=? 90)) || (n =? 95)
   || ((97 <=? n) && (n <=? 122))
   || (n =? 170) || (n =? 178) || (n =? 179) || (n =? 181) || (n =? 185)
   || (n =? 186) || ((188 <=? n) && (n <=? 190))
   || ((192 <=? n) && (n <=? 214)) || ((216 <=? n) && (n <=? 246))
   || (248 <=? n))%N.

(** [[\w\d]] *)
Definition is_word_or_digit (c : ascii) : bool := is_word c || is_digit c.

Definition newline : ascii := Ascii.ascii_of_nat 10.

(** [.] without [re.DOTALL] *)
Definition dot (c : ascii) : bool := negb (chr_eqb c newline).

(** [.] under [re.DOTALL] *)
Definition dot_all (c : ascii) : bool := true.

(** ** Regular expressions and the backtracking matcher *)

Module Re.

Inductive greed := Greedy | Lazy.

Inductive regex :=
| Eps
| Chr (p : ascii → bool)
| Seq (r1 r2 : regex)
| Star (g : greed) (p : ascii → bool)
| Group (n : nat) (r : regex).

(** A literal string of the pattern. *)
Fixpoint Lit (s : text) : regex :=
  match s with
  | [] => Eps
  | c :: s' => Seq (Chr (chr_eqb c)) (Lit s')
  end.

(** [p+], greedy. *)
Definition Plus (p : ascii → bool) : regex := Seq (Chr p) (Star Greedy p).

Fixpoint seqs (rs : list regex) : regex :=
  match rs with
  | [] => Eps
  | r :: rs' => Seq r (seqs rs')
  end.

(** Captured groups, most recent first. *)
Definition caps := list (nat * text).

Definition group (n : nat) (cs : caps) : option text :=
  snd <$> List.find (λ e, Nat.eqb (fst e) n) cs.

Section Matcher.
Context {A : Type}.

Definition cont := text → caps → option A.

(** [p*] and [p*?] followed by the continuation [k]: the greedy form
    tries one more character first, the lazy form tries [k] first. *)
Fixpoint star_match (g : greed) (p : ascii → bool) (s : text) (cs : caps)
    (k : cont) : option A :=
  match g with
  | Lazy =>
      match k s cs with
      | Some a => Some a
      | None =>
          match s with
          | c :: s' => if p c then star_match g p s' cs k else None
          | [] => None
          end
      end
  | Greedy =>
      match s with
      | c :: s' =>
          if p c then
            match star_match g p s' cs k with
            | Some a => Some a
            | None => k s cs
            end
          else k s cs
      | [] => k s cs
      end
  end.

Fixpoint rmatch (r : regex) (s : text) (cs : caps) (k : cont) : option A :=
  match r with
  | Eps => k s cs
  | Chr p =>
      match s with
      | c :: s' => if p c then k s' cs else None
      | [] => None
      end
  | Seq r1 r2 => rmatch r1 s cs (λ s1 cs1, rmatch r2 s1 cs1 k)
  | Star g p => star_match g p s cs k
  | Group n r1 =>
      rmatch r1 s cs
        (λ s' cs', k s' ((n, take (length s - length s') s) :: cs'))
  end.
End Matcher.

(** A match object: the groups and the text after the match. *)
Record rmatch_result := { groups : caps; rest : text }.

(** The pattern anchored at the start of [s] ([pattern.match]). *)
Definition match_at (r : regex) (s : text) : option rmatch_result :=
  rmatch r s [] (λ s' cs, Some {| groups := cs; rest := s' |}).

(** [re.search]: the leftmost position at which the pattern matches. *)
Fixpoint search (r : regex) (s : text) : option rmatch_result :=
  match match_at r s with
  | Some m => Some m
  | None =>
      match s with
      | [] => None
      | _ :: s' => search r s'
      end
  end.

(** [re.finditer]: the non-overlapping matches from left to right.  After a
    match the scan goes on where the match ended (one character further
    when the match was empty). *)
Fixpoint finditer_fuel (fuel : nat) (r : regex) (s : text) : list rmatch_result :=
  match fuel with
  | O => []
  | S fuel' =>
      match match_at r s with
      | Some m =>
          if decide (length (rest m) < length s)%nat
          then m :: finditer_fuel fuel' r (rest m)
          else m :: match s with
                    | [] => []
                    | _ :: s' => finditer_fuel fuel' r s'
                    end
      | None =>
          match s with
          | [] => []
          | _ :: s' => finditer_fuel fuel' r s'
          end
      end
  end.

Definition finditer (r : regex) (s : text) : list rmatch_result :=
  finditer_fuel (S (length s)) r s.

End Re.

Import Re.

(** ** The patterns of the source *)

Definition ws : regex := Star Greedy is_space.

(** Line 49: [const linksData]. *)
Definition marker_re : regex := Lit (str "const linksData").

(** Line 52, compiled with [re.DOTALL]:
    [const linksData\s*=\s*] then group 1 [\{.*?\}\s*] then [;]. *)
Definition linksData_re : regex :=
  seqs [ Lit (str "const linksData"); ws; Lit (str "="); ws;
         Group 1 (seqs [ Lit (str "{"); Star Lazy dot_all; Lit (str "}"); ws ]);
         Lit (str ";") ].

(** The part of the record pattern after the name group, written with an
    apostrophe for each double quote:
    [',\s*'url':\s*'] then group 2 [acestream://[\w\d]+] then ['\s*\}]. *)
Definition record_tail_re : regex :=
  seqs [ Lit (qstr "',"); ws; Lit (qstr "'url':"); ws; Lit (qstr "'");
         Group 2 (Seq (Lit (str "acestream://")) (Plus is_word_or_digit));
         Lit (qstr "'"); ws; Lit (str "}") ].

(** Line 59, with the same convention: [\{\s*'name':\s*'] then group 1
    [.*?] then the tail above. *)
Definition record_re : regex :=
  seqs [ Lit (str "{"); ws; Lit (qstr "'name':"); ws; Lit (qstr "'");
         Group 1 (Star Lazy dot); record_tail_re ].

(** ** Python helpers *)

Fixpoint is_prefix (p s : text) : bool :=
  match p, s with
  | [], _ => true
  | a :: p', b :: s' => chr_eqb a b && is_prefix p' s'
  | _ :: _, [] => false
  end.

(** [s.split(sep)] for a non-empty [sep]: the pieces between the
    non-overlapping occurrences of [sep], found from left to right.  [skip]
    counts the characters of an occurrence still to be passed over, [cur] is
    the piece being read. *)
Fixpoint split_from (sep : text) (skip : nat) (cur : text) (s : text) : list text :=
  match s with
  | [] => [cur]
  | c :: s' =>
      match skip with
      | S n => split_from sep n cur s'
      | O =>
          if is_prefix sep s
          then cur :: split_from sep (length sep - 1) [] s'
          else split_from sep 0 (cur ++ [c]) s'
      end
  end.

Definition split (sep s : text) : list text := split_from sep 0 [] s.

(** The outcome of a call that may raise. *)
Inductive outcome (A : Type) :=
| Ok (a : A)
| Raised.
Arguments Ok {A} a.
Arguments Raised {A}.

(** ** The scraper instance, line 13 to 25

    [acestream_pattern] and [headers] are constants that no method of the
    claims reads back; they are left out of the record. *)

Record scraper := {
  url : text;
  timeout : Z;
  retries : Z;
  identified_ids : gset text
}.

(** [__init__(self, url, timeout=10, retries=3)] *)
Definition AceStreamScraper (u : text) (t : Z) (r : Z) : scraper :=
  {| url := u; timeout := t; retries := r; identified_ids := ∅ |}.

Definition AceStreamScraper_default (u : text) : scraper :=
  AceStreamScraper u 10 3.

Definition set_timeout (self : scraper) (t : Z) : scraper :=
  {| url := url self; timeout := t; retries := retries self;
     identified_ids := identified_ids self |}.

Definition set_identified_ids (self : scraper) (ids : gset text) : scraper :=
  {| url := url self; timeout := timeout self; retries := retries self;
     identified_ids := ids |}.

(** A channel is the tuple [(channel_id, name)]. *)
Definition channel : Type := text * text.

(** ** The world around the script *)

(** The parsed document as far as [extract_from_script] looks at it: the
    [script] elements in document order, each with its [.string] ([None]
    when the element has no single string child). *)
Definition soup := list (option text).

Record env := {
  (** what the [n]-th GET of the run answers to a url and a timeout;
      [None] is any failure (network error, timeout, error status) *)
  http_get : nat → text → Z → option text;
  (** [BeautifulSoup(content, 'html.parser')]: the parsed document, or
      [Raised] when the parser rejects the markup *)
  BeautifulSoup : text → outcome soup
}.

Record world := {
  requests : list (text * Z);
  files : gmap text text;
  console : list text
}.

Definition log_request (w : world) (u : text) (t : Z) : world :=
  {| requests := requests w ++ [(u, t)]; files := files w;
     console := console w |}.

(** The file named [filename] now holds [content]. *)
Definition write_file (w : world) (filename content : text) : world :=
  {| requests := requests w; files := <[filename := content]> (files w);
     console := console w |}.

Definition print (w : world) (line : text) : world :=
  {| requests := requests w; files := files w;
     console := console w ++ [line] |}.

(** ** fetch_content, line 27 to 42 *)

Definition fetch_content (E : env) (self : scraper) (u : text) (w : world)
  : outcome text * world :=
  let w' := log_request w u (timeout self) in
  match http_get E (length (requests w)) u (timeout self) with
  | Some content => (Ok content, w')
  | None => (Raised, w')
  end.

(** ** extract_from_script, line 44 to 70 *)

(** [soup.find('script', text=re.compile(r'const linksData'))]: the first
    script element whose string the marker pattern is found in. *)
Fixpoint soup_find_script (sp : soup) : option text :=
  match sp with
  | [] => None
  | Some s :: sp' =>
      match search marker_re s with
      | Some _ => Some s
      | None => soup_find_script sp'
      end
  | None :: sp' => soup_find_script sp'
  end.

(** Lines 62 to 64 for one match: [name], [url] and
    [channel_id = url.split('acestream://')[1]].  [None] stands for the
    exception Python raises when a group is missing or the split has fewer
    than two pieces. *)
Definition record_of_match (m : rmatch_result) : option channel :=
  name ← group 1 (groups m);
  u ← group 2 (groups m);
  channel_id ← split (str "acestream://") u !! 1%nat;
  Some (channel_id, name).

Definition nonempty (s : text) : bool :=
  match s with [] => false | _ :: _ => true end.

(** The [for] loop of line 61 to 68 over the matches, with the list
    [channels] and the set [self.identified_ids] it mutates. *)
Fixpoint extract_loop (ms : list rmatch_result) (channels : list channel)
    (ids : gset text) : outcome (list channel) * gset text :=
  match ms with
  | [] => (Ok channels, ids)
  | m :: ms' =>
      match record_of_match m with
      | None => (Raised, ids)
      | Some (channel_id, name) =>
          if nonempty channel_id && bool_decide (channel_id ∉ ids)
          then extract_loop ms' (channels ++ [(channel_id, name)])
                 ({[channel_id]} ∪ ids)
          else extract_loop ms' channels ids
      end
  end.

(** The text of group 1 of the [linksData] assignment, line 49 to 56. *)
Definition find_json_text (sp : soup) : option text :=
  script_content ← soup_find_script sp;
  json_match ← search linksData_re script_content;
  group 1 (groups json_match).

Definition extract_from_script (self : scraper) (sp : soup)
  : outcome (list channel) * scraper :=
  let channels := [] in
  match soup_find_script sp with
  | Some script_content =>
      match search linksData_re script_content with
      | Some json_match =>
          match group 1 (groups json_match) with
          | Some json_text =>
              let links_matches := finditer record_re json_text in
              let '(r, ids) :=
                extract_loop links_matches channels (identified_ids self) in
              (r, set_identified_ids self ids)
          | None => (Raised, self)
          end
      | None => (Ok channels, self)
      end
  | None => (Ok channels, self)
  end.

(** ** scrape, line 72 to 97

    The [while] loop runs on [fuel]; [scrape] gives it [retries + 1]
    iterations, which is all it can use ([scrape_total] below).  The [try]
    of line 78 covers the request, the parser and the extraction: whichever
    raises, the [except] branch [failed] runs. *)
Fixpoint scrape_loop (E : env) (fuel : nat) (retries_left : Z)
    (channels : list channel) (self : scraper) (w : world)
  : option (list channel * scraper * world) :=
  if retries_left <? 0 then Some (channels, self, w)
  else
    match fuel with
    | O => None
    | S fuel' =>
        let failed (self1 : scraper) (w1 : world) :=
          let retries_left' := retries_left - 1 in
          if retries_left' <? 0 then Some (channels, self1, w1)
          else scrape_loop E fuel' retries_left' channels
                 (set_timeout self1 (timeout self1 + 5)) w1 in
        match fetch_content E self (url self) w with
        | (Ok content, w1) =>
            match BeautifulSoup E content with
            | Ok sp =>
                match extract_from_script self sp with
                | (Ok script_channels, self1) =>
                    Some (channels ++ script_channels, self1, w1)
                | (Raised, self1) => failed self1 w1
                end
            | Raised => failed self w1
            end
        | (Raised, w1) => failed self w1
        end
    end.

Definition scrape (E : env) (self : scraper) (w : world)
  : option (list channel * scraper * world) :=
  scrape_loop E (Z.to_nat (retries self + 1)) (retries self) [] self w.

(** ** format_output, line 99 to 101 *)

Definition format_output (self : scraper) (channels : list channel)
  : list (gmap text text) :=
  map (λ c : channel, let '(channel_id, name) := c in
         <[str "name" := name]> (<[str "id" := channel_id]> ∅)) channels.

(** ** The writers, line 103 to 119

    The file object is the text written so far; the file holds it when the
    [with] block ends.  Mode ["w"] replaces any earlier content. *)

Definition nl : text := [newline].

Definition f_write (f : text) (s : text) : text := f ++ s.

Definition save_to_file (self : scraper) (channels : list channel)
    (filename : text) (w : world) : world :=
  let f := [] in
  let f := f_write f (str "#EXTM3U" ++ nl) in
  let f :=
    fold_left (λ f (c : channel), let '(channel_id, name) := c in
       let f := f_write f (str "#EXTINF:-1," ++ name ++ nl) in
       f_write f (str "http://127.0.0.1:6878/ace/getstream?id=" ++ channel_id ++ nl))
      channels f in
  write_file w filename f.

Definition save_to_m3u (self : scraper) (channels : list channel)
    (filename : text) (w : world) : world :=
  let f := [] in
  let f := f_write f (str "#EXTM3U" ++ nl) in
  let f :=
    fold_left (λ f (c : channel), let '(channel_id, name) := c in
       let f := f_write f (str "#EXTINF:-1," ++ name ++ nl) in
       f_write f (str "acestream://" ++ channel_id ++ nl))
      channels f in
  write_file w filename f.

Definition channels_txt : text := str "acestream_channels.txt".
Definition playlist_m3u : text := str "acestream_playlist.m3u".

(** ** main, line 121 to 139 *)

Definition decimal (n : nat) : text := str (pretty n).

Definition main_url : text :=
  str "https://archive.org/download/abcd_20240416/output.html".

Definition print_channel (w : world) (ic : nat * channel) : world :=
  let '(i, (channel_id, name)) := ic in
  print w (decimal i ++ str ". " ++ name ++ str ": acestream://" ++ channel_id).

(** [enumerate(l, 1)] *)
Definition enumerate1 {A} (l : list A) : list (nat * A) :=
  zip (seq 1 (length l)) l.

(** Lines 128 to 133: the count, the first ten channels, the remainder. *)
Definition print_summary (channels : list channel) (w : world) : world :=
  let w := print w (str "Found " ++ decimal (length channels) ++ str " channels:") in
  let w := fold_left print_channel (enumerate1 (take 10 channels)) w in
  if (10 <? length channels)%nat
  then print w (str "...and " ++ decimal (length channels - 10) ++ str " more channels")
  else w.

Definition main (E : env) (w : world) : option world :=
  let scraper := AceStreamScraper_default main_url in
  '(channels, scraper, w) ← scrape E scraper w;
  if negb (bool_decide (channels = [])) then
    let w := print_summary channels w in
    let w := save_to_file scraper channels channels_txt w in
    let w := save_to_m3u scraper channels playlist_m3u w in
    Some w
  else Some (print w (str "No channels found")).

(** ** Method calls on an instance

    One constructor per method of the class; [perform] runs a call on an
    instance and gives the instance and the world after it. *)

Inductive call :=
| Call_fetch_content (u : text)
| Call_extract_from_script (sp : soup)
| Call_scrape
| Call_format_output (channels : list channel)
| Call_save_to_file (channels : list channel) (filename : text)
| Call_save_to_m3u (channels : list channel) (filename : text).

Definition perform (E : env) (c : call) (self : scraper) (w : world)
  : option (scraper * world) :=
  match c with
  | Call_fetch_content u => Some (self, snd (fetch_content E self u w))
  | Call_extract_from_script sp => Some (snd (extract_from_script self sp), w)
  | Call_scrape =>
      '(_, self', w') ← scrape E self w; Some (self', w')
  | Call_format_output channels =>
      let _ := format_output self channels in Some (self, w)
  | Call_save_to_file channels filename =>
      Some (self, save_to_file self channels filename w)
  | Call_save_to_m3u channels filename =>
      Some (self, save_to_m3u self channels filename w)
  end.

Fixpoint perform_all (E : env) (cs : list call) (self : scraper) (w : world)
  : option (scraper * world) :=
  match cs with
  | [] => Some (self, w)
  | c :: cs' =>
      '(self', w') ← perform E c self w; perform_all E cs' self' w'
  end.

(** ** Notions used to state the properties *)

(** What a regex matches, as a relation: [sem r w cs cs'] when [r] matches
    exactly the text [w] and turns the groups [cs] into [cs']. *)
Inductive sem : regex → text → caps → caps → Prop :=
| sem_Eps cs : sem Eps [] cs cs
| sem_Chr p c cs : p c = true → sem (Chr p) [c] cs cs
| sem_Seq r1 r2 w1 w2 cs cs1 cs2 :
    sem r1 w1 cs cs1 → sem r2 w2 cs1 cs2 → sem (Seq r1 r2) (w1 ++ w2) cs cs2
| sem_Star g p w cs :
    Forall (λ c, p c = true) w → sem (Star g p) w cs cs
| sem_Group n r w cs cs' :
    sem r w cs cs' → sem (Group n r) w cs ((n, w) :: cs').

(** The records of the document: [(channel_id, name)] for every match of the
    record pattern in the [linksData] text, in the order of the matches. *)
Definition occurrences (sp : soup) : list channel :=
  match find_json_text sp with
  | Some json_text => omap record_of_match (finditer record_re json_text)
  | None => []
  end.

(** The first occurrence of an identifier in a list of records: its
    position and the record there. *)
Definition first_occurrence (channel_id : text) (l : list channel)
  : option (nat * channel) :=
  list_find (λ c : channel, c.1 = channel_id) l.

Arguments first_occurrence : simpl never.

(** The text of a playlist: every line followed by a newline. *)
Definition unlines (ls : list text) : text := concat (map (λ l, l ++ nl) ls).

Definition legacy_uri (channel_id : text) : text :=
  str "http://127.0.0.1:6878/ace/getstream?id=" ++ channel_id.

Definition native_uri (channel_id : text) : text :=
  str "acestream://" ++ channel_id.

Definition playlist_lines (uri : text → text) (channels : list channel)
  : list text :=
  str "#EXTM3U" ::
  flat_map (λ c : channel, [str "#EXTINF:-1," ++ c.2; uri c.1]) channels.

(** The text of a record after its name, and before it. *)
Definition tail_text (s3 s4 tok s5 : text) : text :=
  qstr "'," ++ s3 ++ qstr "'url':" ++ s4 ++ qstr "'" ++
  (str "acestream://" ++ tok) ++ qstr "'" ++ s5 ++ str "}".

Definition head_text (s1 s2 : text) : text :=
  str "{" ++ s1 ++ qstr "'name':" ++ s2 ++ qstr "'".

Definition spaces (s : text) : Prop := Forall (λ c, is_space c = true) s.

Definition token (tok : text) : Prop :=
  tok ≠ [] ∧ Forall (λ c, is_word_or_digit c = true) tok.

(** The records kept by the loop, by recursion on the list: a record is
    kept when its identifier has not been seen, and is seen from then on. *)
Fixpoint firsts (seen : gset text) (l : list channel) : list channel :=
  match l with
  | [] => []
  | (channel_id, name) :: l' =>
      if decide (channel_id ∈ seen) then firsts seen l'
      else (channel_id, name) :: firsts ({[channel_id]} ∪ seen) l'
  end.

(** A match object that the record pattern can give. *)
Definition from_record_re (m : rmatch_result) : Prop :=
  ∃ s, match_at record_re s = Some m.

(** What the [n]-th request of the run puts in the hands of the extractor:
    the parsed response, or nothing when the request fails or the parser
    raises on the response. *)
Definition attempt (E : env) (n : nat) (u : text) (t : Z) : option soup :=
  match http_get E n u t with
  | Some content =>
      match BeautifulSoup E content with
      | Ok sp => Some sp
      | Raised => None
      end
  | None => None
  end.

Arguments attempt : simpl never.

(** The requests of [n] attempts in a row, the first with timeout [t]. *)
Definition attempts (u : text) (t : Z) (n : nat) : list (text * Z) :=
  map (λ k, (u, t + 5 * Z.of_nat k)) (seq 0 n).

(** A channel that fits on the lines of a playlist. *)
Definition no_newline (c : channel) : Prop :=
  (newline ∉ fst c) ∧ (newline ∉ snd c).

(** [sub in s] for texts. *)
Definition contains (sub s : text) : Prop := ∃ pre post, s = pre ++ sub ++ post.

(** Modelled from the spec: the reader of the round-trip property is not
    part of the script.  It follows the words of the spec: the text is
    split into lines, the header line is dropped, and each following pair
    of lines gives a record by removing the [#EXTINF:-1,] prefix from the
    first line and the [http://127.0.0.1:6878/ace/getstream?id=] prefix
    from the second. *)
Fixpoint strip_prefix (p s : text) : option text :=
  match p, s with
  | [], _ => Some s
  | a :: p', b :: s' => if chr_eqb a b then strip_prefix p' s' else None
  | _ :: _, [] => None
  end.

(** Modelled from the spec: the records of the lines after the header. *)
Fixpoint parse_entries (lines : list text) : option (list channel) :=
  match lines with
  | [] => Some []
  | [[]] => Some []
  | l1 :: l2 :: lines' =>
      name ← strip_prefix (str "#EXTINF:-1,") l1;
      channel_id ← strip_prefix (str "http://127.0.0.1:6878/ace/getstream?id=") l2;
      channels ← parse_entries lines';
      Some ((channel_id, name) :: channels)
  | [_] => None
  end.

(** Modelled from the spec: the reader of a legacy playlist. *)
Definition parse_legacy (content : text) : option (list channel) :=
  match split nl content with
  | header :: lines =>
      if bool_decide (header = str "#EXTM3U") then parse_entries lines
      else None
  | [] => None
  end.

(** The lines that [main] prints for a non-empty list: the count, one line
    for each of the first ten channels, and the remainder when there is
    one. *)
Definition summary_lines (channels : list channel) : list text :=
  [str "Found " ++ decimal (length channels) ++ str " channels:"] ++
  imap (λ i (c : channel),
          decimal (S i) ++ str ". " ++ c.2 ++ str ": acestream://" ++ c.1)
       (take 10 channels) ++
  (if (10 <? length channels)%nat
   then [str "...and " ++ decimal (length channels - 10) ++ str " more channels"]
   else []).

(** The record read back from a dictionary of [format_output]. *)
Definition channel_of_dict (d : gmap text text) : option channel :=
  channel_id ← d !! str "id"; name ← d !! str "name"; Some (channel_id, name).

(** A channel as the extractor returns it: a non-empty identifier of word
    characters and a name without newline. *)
Definition well_formed (c : channel) : Prop :=
  token (fst c) ∧ (newline ∉ snd c).

(** [runs r w s cs cs']: before the text [s], the pattern [r] matches [w]
    at the first try and turns the groups [cs] into [cs'], whatever follows
    it in the pattern. *)
Definition runs (r : regex) (w s : text) (cs cs' : caps) : Prop :=
  ∀ (A : Type) (k : @cont A) (a : A),
    k s cs' = Some a → rmatch r (w ++ s) cs k = Some a.

(** The text [s] does not go on with a character of the class [p]. *)
Definition stops (p : ascii → bool) (s : text) : Prop :=
  match s with
  | [] => True
  | c :: _ => p c = false
  end.

(** ** Sample data *)

Definition sample_script : text :=
  qstr "const linksData = { links: [{'name':'Channel 1','url':'acestream://abc123'},{'name':'Channel 1 dup','url':'acestream://abc123'}, {'name': 'Two', 'url': 'acestream://x1'}] };".

Definition sample_soup : soup :=
  [None; Some (str "var a = 1;"); Some sample_script].

(** A record with quotes inside its name field, and a document with it. *)
Definition quoted_record : text :=
  qstr "{'name': 'a'b', 'url': 'acestream://x1'}".

Definition quoted_json : text :=
  str "{ links: [" ++ quoted_record ++ str "] }".

Definition quoted_soup : soup :=
  [Some (str "const linksData = " ++ quoted_json ++ str ";")].

(** A network on which the first two requests fail and the third answers. *)
Definition sample_env : env :=
  {| http_get := λ n _ _, if (n <? 2)%nat then None else Some (str "<html/>");
     BeautifulSoup := λ _, Ok sample_soup |}.

(** A network that never answers. *)
Definition dead_env : env :=
  {| http_get := λ _ _ _, None; BeautifulSoup := λ _, Ok [] |}.

(** A network that always answers, with markup that the parser rejects. *)
Definition rejected_env : env :=
  {| http_get := λ _ _ _, Some (str "<![foo bar]>");
     BeautifulSoup := λ _, Raised |}.

Definition empty_world : world :=
  {| requests := []; files := ∅; console := [] |}.

Definition sample_channels : list channel :=
  [(str "abc123", str "Channel 1"); (str "x1", str "Two")].

(** A channel whose name spans three lines, and the two channels whose
    playlist has the same text. *)
Definition ambiguous_channels : list channel :=
  [(str "x",
    str "a" ++ nl ++ str "http://127.0.0.1:6878/ace/getstream?id=y" ++ nl ++
    str "#EXTINF:-1,b")].

Definition ambiguous_reading : list channel :=
  [(str "y", str "a"); (str "x", str "b")].

(** * Properties *)

(** ** The matcher *)

Section MatcherFacts.
Context {A : Type}.
Implicit Types (k : @cont A) (s w : text) (cs : caps).

Lemma star_match_sound g p s cs k a :
  star_match g p s cs k = Some a →
  ∃ w s', s = w ++ s' ∧ Forall (λ c, p c = true) w ∧ k s' cs = Some a.
Proof.
  induction s as [|c s IH]; destruct g; simpl.
  - intros H. exists [], []. by repeat split.
  - destruct (k [] cs) eqn:Hk; [|done].
    intros [= ->]. exists [], []. by repeat split.
  - destruct (p c) eqn:Hp.
    + destruct (star_match Greedy p s cs k) eqn:Hs.
      * intros [= ->]. destruct (IH eq_refl) as (w & s' & -> & Hw & Hk).
        exists (c :: w), s'. repeat split; [by constructor|done].
      * intros Hk. exists [], (c :: s). by repeat split.
    + intros Hk. exists [], (c :: s). by repeat split.
  - destruct (k (c :: s) cs) eqn:Hk.
    + intros [= ->]. exists [], (c :: s). by repeat split.
    + destruct (p c) eqn:Hp; [|done].
      intros (w & s' & -> & Hw & Hk')%IH.
      exists (c :: w), s'. repeat split; [by constructor|done].
Qed.

(** The lazy repetition stops at the first place where the continuation
    succeeds. *)
Lemma star_lazy_minimal p s cs k a :
  star_match Lazy p s cs k = Some a →
  ∃ w s', s = w ++ s' ∧ Forall (λ c, p c = true) w ∧ k s' cs = Some a ∧
    ∀ w1 w2, w = w1 ++ w2 → w2 ≠ [] → k (w2 ++ s') cs = None.
Proof.
  induction s as [|c s IH]; simpl.
  - destruct (k [] cs) eqn:Hk; [|done].
    intros [= ->]. exists [], []. repeat split; try done.
    intros [|??] [|??]; naive_solver.
  - destruct (k (c :: s) cs) eqn:Hk.
    + intros [= ->]. exists [], (c :: s). repeat split; try done.
      intros [|??] [|??]; naive_solver.
    + destruct (p c) eqn:Hp; [|done].
      intros (w & s' & -> & Hw & Hk' & Hmin)%IH.
      exists (c :: w), s'. repeat split; [by constructor|done|].
      intros [|c1 w1] w2 Heq Hne; simpl in Heq.
      * by subst w2.
      * injection Heq as -> ->. by apply (Hmin w1 w2).
Qed.

Lemma rmatch_sound r : ∀ s cs k a,
  rmatch r s cs k = Some a →
  ∃ w s' cs', s = w ++ s' ∧ sem r w cs cs' ∧ k s' cs' = Some a.
Proof.
  induction r as [|p|r1 IH1 r2 IH2|g p|n r IH]; intros s cs k a; simpl.
  - intros Hk. exists [], s, cs. repeat split; [constructor|done].
  - destruct s as [|c s]; [done|]. destruct (p c) eqn:Hp; [|done].
    intros Hk. exists [c], s, cs. repeat split; [by constructor|done].
  - intros (w1 & s1 & cs1 & -> & Hs1 & H2)%IH1.
    apply IH2 in H2 as (w2 & s2 & cs2 & -> & Hs2 & Hk).
    exists (w1 ++ w2), s2, cs2. rewrite <-(assoc_L (++)).
    repeat split; [by econstructor|done].
  - intros (w & s' & -> & Hw & Hk)%star_match_sound.
    exists w, s', cs. repeat split; [by constructor|done].
  - intros (w & s' & cs' & -> & Hs & Hk)%IH.
    exists w, s', ((n, w) :: cs'). repeat split; [by constructor|].
    rewrite length_app in Hk.
    replace (length w + length s' - length s')%nat with (length w) in Hk by lia.
    by rewrite take_app_length in Hk.
Qed.
End MatcherFacts.

(** Whether a pattern fails does not depend on the groups collected so far
    nor on what the continuation returns when it succeeds. *)
Lemma star_match_None {A B} g p s cs cs' (k : @cont A) (k' : @cont B) :
  (∀ s1, k s1 cs = None → k' s1 cs' = None) →
  star_match g p s cs k = None → star_match g p s cs' k' = None.
Proof.
  intros Hk. induction s as [|c s IH]; destruct g; simpl.
  - apply Hk.
  - destruct (k [] cs) eqn:H1; [done|]. by rewrite (Hk _ H1).
  - destruct (p c); [|apply Hk].
    destruct (star_match Greedy p s cs k) eqn:H1; [done|].
    rewrite (IH eq_refl). apply Hk.
  - destruct (k (c :: s) cs) eqn:H1; [done|]. rewrite (Hk _ H1).
    destruct (p c); [apply IH|done].
Qed.

Lemma rmatch_None {A B} r : ∀ s cs cs' (k : @cont A) (k' : @cont B),
  (∀ s1 cs1 cs1', k s1 cs1 = None → k' s1 cs1' = None) →
  rmatch r s cs k = None → rmatch r s cs' k' = None.
Proof.
  induction r as [|p|r1 IH1 r2 IH2|g p|n r IH]; intros s cs cs' k k' Hk; simpl.
  - apply Hk.
  - destruct s as [|c s]; [done|]. destruct (p c); [apply Hk|done].
  - apply IH1. intros s1 cs1 cs1'. by apply IH2.
  - apply star_match_None. intros s1. apply Hk.
  - apply IH. intros s1 cs1 cs1'. apply Hk.
Qed.

Lemma match_at_sound r s m :
  match_at r s = Some m →
  ∃ w, s = w ++ rest m ∧ sem r w [] (groups m).
Proof.
  unfold match_at. intros (w & s' & cs' & -> & Hs & [= <-])%rmatch_sound.
  by exists w.
Qed.

Lemma search_sound r s m :
  search r s = Some m →
  ∃ pre w, s = pre ++ w ++ rest m ∧ sem r w [] (groups m).
Proof.
  induction s as [|c s IH]; simpl.
  - destruct (match_at r []) eqn:H; [|done].
    intros [= ->]. apply match_at_sound in H as (w & ? & ?). by exists [], w.
  - destruct (match_at r (c :: s)) eqn:H.
    + intros [= ->]. apply match_at_sound in H as (w & ? & ?). by exists [], w.
    + intros (pre & w & -> & ?)%IH. by exists (c :: pre), w.
Qed.

Lemma finditer_fuel_sound r m : ∀ fuel s,
  m ∈ finditer_fuel fuel r s →
  ∃ pre s1, s = pre ++ s1 ∧ match_at r s1 = Some m.
Proof.
  induction fuel as [|fuel IH]; intros s; simpl; [by intros ?%elem_of_nil|].
  assert (Hskip : (m ∈ match s with [] => [] | _ :: s' => finditer_fuel fuel r s' end) →
    ∃ pre s1, s = pre ++ s1 ∧ match_at r s1 = Some m).
  { destruct s as [|c s]; [by intros ?%elem_of_nil|].
    intros (pre & s1 & -> & ?)%IH. by exists (c :: pre), s1. }
  destruct (match_at r s) as [m'|] eqn:Hm; [|done].
  assert (Hhere : m = m' → ∃ pre s1, s = pre ++ s1 ∧ match_at r s1 = Some m).
  { intros ->. by exists [], s. }
  case_decide; intros [?|Hin]%elem_of_cons; auto.
  apply IH in Hin as (pre & s1 & Heq & ?).
  apply match_at_sound in Hm as (w & -> & _).
  exists (w ++ pre), s1. by rewrite Heq, (assoc_L (++)).
Qed.

(** The fuel of [finditer] is enough: more of it changes nothing. *)
Lemma finditer_fuel_enough r : ∀ fuel1 fuel2 s,
  (length s < fuel1)%nat → (length s < fuel2)%nat →
  finditer_fuel fuel1 r s = finditer_fuel fuel2 r s.
Proof.
  induction fuel1 as [|fuel1 IH]; intros fuel2 s H1 H2; [lia|].
  destruct fuel2 as [|fuel2]; [lia|]. simpl.
  assert (Hskip : match s with [] => [] | _ :: s' => finditer_fuel fuel1 r s' end =
                  match s with [] => [] | _ :: s' => finditer_fuel fuel2 r s' end).
  { destruct s as [|c s]; [done|]. simpl in *. apply IH; lia. }
  destruct (match_at r s) as [m|]; [|done].
  case_decide; [|by rewrite Hskip]. f_equal. apply IH; lia.
Qed.

(** The matches are found from left to right: each one ends, and the text
    after it is a suffix of the text after the one before. *)
Lemma finditer_fuel_left_to_right r : ∀ fuel s,
  Forall (λ m, length (rest m) ≤ length s)%nat (finditer_fuel fuel r s) ∧
  StronglySorted (λ m1 m2, length (rest m2) ≤ length (rest m1))%nat
    (finditer_fuel fuel r s).
Proof.
  induction fuel as [|fuel IH]; intros s; simpl; [by split; constructor|].
  assert (Hskip :
    Forall (λ m, length (rest m) ≤ length s)%nat
      (match s with [] => [] | _ :: s' => finditer_fuel fuel r s' end) ∧
    StronglySorted (λ m1 m2, length (rest m2) ≤ length (rest m1))%nat
      (match s with [] => [] | _ :: s' => finditer_fuel fuel r s' end)).
  { destruct s as [|c s]; [by split; constructor|].
    destruct (IH s) as [Hb Hs]. split; [|done].
    eapply Forall_impl; [exact Hb|]. simpl. intros; lia. }
  destruct (match_at r s) as [m|] eqn:Hm; [|done].
  apply match_at_sound in Hm as (w & Hw & _).
  assert (length (rest m) ≤ length s)%nat
    by (apply (f_equal length) in Hw; rewrite length_app in Hw; lia).
  case_decide.
  - destruct (IH (rest m)) as [Hb Hs]. split.
    + constructor; [done|]. eapply Forall_impl; [exact Hb|]. simpl. intros; lia.
    + by constructor.
  - destruct Hskip as [Hb Hs]. split; [by constructor|].
    constructor; [done|]. eapply Forall_impl; [exact Hb|]. simpl. intros; lia.
Qed.

Lemma finditer_sound r s m :
  m ∈ finditer r s → ∃ pre s1, s = pre ++ s1 ∧ match_at r s1 = Some m.
Proof. apply finditer_fuel_sound. Qed.

(** ** What the patterns match *)

Lemma sem_Eps_inv w cs cs' : sem Eps w cs cs' → w = [] ∧ cs' = cs.
Proof. by inversion 1. Qed.

Lemma sem_Seq_inv r1 r2 w cs cs' :
  sem (Seq r1 r2) w cs cs' →
  ∃ w1 w2 cs1, w = w1 ++ w2 ∧ sem r1 w1 cs cs1 ∧ sem r2 w2 cs1 cs'.
Proof. inversion 1; subst. eauto 10. Qed.

Lemma sem_Star_inv g p w cs cs' :
  sem (Star g p) w cs cs' → Forall (λ c, p c = true) w ∧ cs' = cs.
Proof. by inversion 1. Qed.

Lemma sem_Group_inv n r w cs cs' :
  sem (Group n r) w cs cs' → ∃ cs1, sem r w cs cs1 ∧ cs' = (n, w) :: cs1.
Proof. inversion 1; subst. eauto. Qed.

Lemma sem_Lit_inv l : ∀ w cs cs', sem (Lit l) w cs cs' → w = l ∧ cs' = cs.
Proof.
  induction l as [|c l IH]; intros w cs cs'; simpl.
  - apply sem_Eps_inv.
  - intros (w1 & w2 & cs1 & -> & H1 & [-> ->]%IH)%sem_Seq_inv.
    inversion H1 as [|p x cs0 Hx| | |]; subst.
    apply Ascii.eqb_eq in Hx as ->. done.
Qed.

Lemma sem_Plus_inv p w cs cs' :
  sem (Plus p) w cs cs' → w ≠ [] ∧ Forall (λ c, p c = true) w ∧ cs' = cs.
Proof.
  intros (w1 & w2 & cs1 & -> & H1 & [Hw ->]%sem_Star_inv)%sem_Seq_inv.
  inversion H1; subst. repeat split; [done|by constructor].
Qed.

Lemma sem_seqs_cons r rs w cs cs' :
  sem (seqs (r :: rs)) w cs cs' →
  ∃ w1 w2 cs1, w = w1 ++ w2 ∧ sem r w1 cs cs1 ∧ sem (seqs rs) w2 cs1 cs'.
Proof. apply sem_Seq_inv. Qed.

Lemma record_tail_shape w cs cs' :
  sem record_tail_re w cs cs' →
  ∃ s3 s4 tok s5,
    w = tail_text s3 s4 tok s5 ∧ spaces s3 ∧ spaces s4 ∧ spaces s5 ∧
    token tok ∧ cs' = (2%nat, str "acestream://" ++ tok) :: cs.
Proof.
  unfold record_tail_re.
  intros (w1 & ? & ? & -> & [-> ->]%sem_Lit_inv & H)%sem_seqs_cons.
  apply sem_seqs_cons in H as (s3 & ? & ? & -> & [H3 ->]%sem_Star_inv & H).
  apply sem_seqs_cons in H as (? & ? & ? & -> & [-> ->]%sem_Lit_inv & H).
  apply sem_seqs_cons in H as (s4 & ? & ? & -> & [H4 ->]%sem_Star_inv & H).
  apply sem_seqs_cons in H as (? & ? & ? & -> & [-> ->]%sem_Lit_inv & H).
  apply sem_seqs_cons in H as (u & ? & ? & -> & (cs1 & Hu & ->)%sem_Group_inv & H).
  apply sem_Seq_inv in Hu as (? & tok & ? & -> & [-> ->]%sem_Lit_inv & Htok).
  apply sem_Plus_inv in Htok as (Hne & Htok & ->).
  apply sem_seqs_cons in H as (? & ? & ? & -> & [-> ->]%sem_Lit_inv & H).
  apply sem_seqs_cons in H as (s5 & ? & ? & -> & [H5 ->]%sem_Star_inv & H).
  apply sem_seqs_cons in H as (? & ? & ? & -> & [-> ->]%sem_Lit_inv & H).
  apply sem_Eps_inv in H as [-> ->].
  exists s3, s4, tok, s5. unfold tail_text. rewrite (right_id_L [] (++)).
  by repeat split.
Qed.

Lemma rmatch_seqs_cons {A} r rs s cs (k : @cont A) :
  rmatch (seqs (r :: rs)) s cs k =
  rmatch r s cs (λ s1 cs1, rmatch (seqs rs) s1 cs1 k).
Proof. done. Qed.

(** A match of the record pattern: the shape of the matched text, the two
    groups, and the name as the shortest text after which the rest of the
    pattern matches. *)
Lemma record_match_shape s m :
  match_at record_re s = Some m →
  ∃ s1 s2 name s3 s4 tok s5,
    s = head_text s1 s2 ++ name ++ tail_text s3 s4 tok s5 ++ rest m ∧
    groups m = [(2%nat, str "acestream://" ++ tok); (1%nat, name)] ∧
    spaces s1 ∧ spaces s2 ∧ spaces s3 ∧ spaces s4 ∧ spaces s5 ∧
    Forall (λ c, dot c = true) name ∧ token tok ∧
    ∀ p q, name = p ++ q → q ≠ [] →
      match_at record_tail_re (q ++ tail_text s3 s4 tok s5 ++ rest m) = None.
Proof.
  unfold match_at, record_re. rewrite rmatch_seqs_cons.
  intros (? & ? & ? & -> & [-> ->]%sem_Lit_inv & H)%rmatch_sound.
  rewrite rmatch_seqs_cons in H.
  apply rmatch_sound in H as (s1 & ? & ? & -> & [H1 ->]%sem_Star_inv & H).
  rewrite rmatch_seqs_cons in H.
  apply rmatch_sound in H as (? & ? & ? & -> & [-> ->]%sem_Lit_inv & H).
  rewrite rmatch_seqs_cons in H.
  apply rmatch_sound in H as (s2 & ? & ? & -> & [H2 ->]%sem_Star_inv & H).
  rewrite rmatch_seqs_cons in H.
  apply rmatch_sound in H as (? & ? & ? & -> & [-> ->]%sem_Lit_inv & H).
  rewrite rmatch_seqs_cons in H.
  apply star_lazy_minimal in H as (name & s6 & -> & Hname & H & Hmin).
  rewrite length_app in H.
  replace (length name + length s6 - length s6)%nat with (length name) in H by lia.
  rewrite take_app_length in H.
  apply rmatch_sound in H as (tl & s7 & cs7 & -> & Htl & [= <-]).
  apply sem_seqs_cons in Htl as (? & ? & ? & -> & Htl & [-> ->]%sem_Eps_inv).
  apply record_tail_shape in Htl as (s3 & s4 & tok & s5 & -> & ? & ? & ? & Htok & ->).
  exists s1, s2, name, s3, s4, tok, s5. simpl rest.
  rewrite (right_id_L [] (++)) in *.
  repeat split; try done; try apply Htok.
  - unfold head_text. by rewrite <-!(assoc_L (++)).
  - intros p q Hpq Hq. specialize (Hmin p q Hpq Hq).
    eapply (rmatch_None (Seq record_tail_re Eps)) in Hmin; [exact Hmin|done].
Qed.

(** A match of the record pattern is never empty, so [finditer] always
    goes on from the end of the match. *)
Lemma record_match_advances s m :
  match_at record_re s = Some m → (length (rest m) < length s)%nat.
Proof.
  intros (s1 & s2 & name & s3 & s4 & tok & s5 & -> & _)%record_match_shape.
  unfold head_text. rewrite !length_app. simpl. lia.
Qed.

(** ** split *)

Lemma is_prefix_spec p : ∀ s, is_prefix p s = true ↔ ∃ r, s = p ++ r.
Proof.
  induction p as [|a p IH]; intros s; simpl.
  - split; [by exists s|done].
  - destruct s as [|b s]; [split; [done|by intros [? ?]]|].
    rewrite andb_true_iff, IH. unfold chr_eqb. rewrite Ascii.eqb_eq.
    split; [intros [-> [r ->]]; by exists r|intros [r [= -> ->]]; eauto].
Qed.

Lemma is_prefix_absent sep x s :
  x ∈ sep → x ∉ s → is_prefix sep s = false.
Proof.
  intros Hsep Hs. apply not_true_is_false. intros [r ->]%is_prefix_spec.
  apply Hs, elem_of_app. by left.
Qed.

Lemma split_from_absent sep x : x ∈ sep → ∀ s cur,
  x ∉ s → split_from sep 0 cur s = [cur ++ s].
Proof.
  intros Hsep. induction s as [|c s IH]; intros cur Hs; simpl.
  - by rewrite (right_id_L [] (++)).
  - destruct sep as [|a sep]; [by apply elem_of_nil in Hsep|].
    fold (is_prefix (a :: sep) (c :: s)).
    rewrite (is_prefix_absent (a :: sep) x (c :: s)) by done.
    rewrite IH, <-(assoc_L (++)); [done|].
    intros ?. apply Hs. by right.
Qed.

Lemma split_from_skip sep l : ∀ s cur,
  split_from sep (length l) cur (l ++ s) = split_from sep 0 cur s.
Proof. induction l as [|c l IH]; intros s cur; simpl; [by destruct s|apply IH]. Qed.

(** [(sep + tok).split(sep)] is [['', tok]] when a character of [sep] does
    not occur in [tok]. *)
Lemma split_sep_prefix sep x tok :
  x ∈ sep → x ∉ tok → split sep (sep ++ tok) = [[]; tok].
Proof.
  intros Hsep Htok. unfold split.
  destruct sep as [|a sep]; [by apply elem_of_nil in Hsep|].
  change (split_from (a :: sep) 0 [] ((a :: sep) ++ tok))
    with (if is_prefix (a :: sep) ((a :: sep) ++ tok)
          then [] :: split_from (a :: sep) (length (a :: sep) - 1) [] (sep ++ tok)
          else split_from (a :: sep) 0 ([] ++ [a]) (sep ++ tok)).
  replace (is_prefix (a :: sep) ((a :: sep) ++ tok)) with true
    by (symmetry; apply is_prefix_spec; eauto).
  replace (length (a :: sep) - 1)%nat with (length sep) by (simpl; lia).
  by rewrite split_from_skip, (split_from_absent _ x).
Qed.

(** Splitting at a single character. *)
Lemma split_from_char x l : ∀ cur rest,
  x ∉ l →
  split_from [x] 0 cur (l ++ x :: rest) = (cur ++ l) :: split_from [x] 0 [] rest.
Proof.
  induction l as [|c l IH]; intros cur rest Hl; simpl.
  - unfold chr_eqb. rewrite Ascii.eqb_refl. simpl.
    by rewrite (right_id_L [] (++)).
  - unfold chr_eqb. destruct (Ascii.eqb_spec x c) as [->|Hne]; simpl.
    + exfalso. apply Hl. by left.
    + rewrite IH, <-(assoc_L (++)); [done|]. intros ?. apply Hl. by right.
Qed.

Lemma token_no_colon tok : token tok → ":"%char ∉ tok.
Proof.
  intros [_ Htok] Hin. rewrite Forall_forall in Htok.
  by specialize (Htok _ Hin).
Qed.

Lemma token_no_newline tok : token tok → newline ∉ tok.
Proof.
  intros [_ Htok] Hin. rewrite Forall_forall in Htok.
  by specialize (Htok _ Hin).
Qed.

Lemma dot_no_newline name :
  Forall (λ c, dot c = true) name → newline ∉ name.
Proof.
  intros Hname Hin. rewrite Forall_forall in Hname.
  by specialize (Hname _ Hin).
Qed.

(** The record of a match: the token and the name of the shape. *)
Lemma record_of_match_shape s m :
  match_at record_re s = Some m →
  ∃ name tok, record_of_match m = Some (tok, name) ∧ token tok ∧
    Forall (λ c, dot c = true) name.
Proof.
  intros (s1 & s2 & name & s3 & s4 & tok & s5 & _ & Hg & _ & _ & _ & _ & _
          & Hname & Htok & _)%record_match_shape.
  exists name, tok. repeat split; try done; try apply Htok.
  unfold record_of_match. rewrite Hg.
  change (group 1 _) with (Some name).
  change (group 2 _) with (Some (str "acestream://" ++ tok)).
  cbv beta iota delta [mbind option_bind].
  rewrite (split_sep_prefix (str "acestream://") ":"%char tok); [done| |].
  - apply list_elem_of_In. vm_compute. tauto.
  - by apply token_no_colon.
Qed.

(** ** The deduplication loop *)

Lemma extract_loop_firsts ms : ∀ channels ids,
  Forall from_record_re ms →
  extract_loop ms channels ids =
    (Ok (channels ++ firsts ids (omap record_of_match ms)),
     ids ∪ list_to_set (omap record_of_match ms).*1).
Proof.
  induction ms as [|m ms IH]; intros channels ids Hms; simpl.
  - by rewrite (right_id_L [] (++)), (right_id_L ∅ (∪)).
  - apply Forall_cons in Hms as [[s Hm] Hms].
    apply record_of_match_shape in Hm as (name & tok & -> & [Hne _] & _).
    simpl. replace (nonempty tok) with true by by destruct tok.
    simpl. case_bool_decide as Hin; case_decide as Hin'; try done.
    + rewrite IH, <-(assoc_L (++)) by done. simpl. f_equal. set_solver.
    + rewrite IH by done. f_equal. set_solver.
Qed.

Lemma finditer_from_record_re s : Forall from_record_re (finditer record_re s).
Proof.
  apply Forall_forall. intros m (pre & s1 & _ & Hm)%finditer_sound.
  by exists s1.
Qed.

(** Group 1 of a match of the [linksData] pattern is always set. *)
Lemma linksData_group s m :
  search linksData_re s = Some m → is_Some (group 1 (groups m)).
Proof.
  intros (pre & w & _ & H)%search_sound. unfold linksData_re in H.
  apply sem_seqs_cons in H as (? & ? & ? & -> & [-> ->]%sem_Lit_inv & H).
  apply sem_seqs_cons in H as (? & ? & ? & -> & [_ ->]%sem_Star_inv & H).
  apply sem_seqs_cons in H as (? & ? & ? & -> & [-> ->]%sem_Lit_inv & H).
  apply sem_seqs_cons in H as (? & ? & ? & -> & [_ ->]%sem_Star_inv & H).
  apply sem_seqs_cons in H as (j & ? & ? & -> & (cs1 & Hj & ->)%sem_Group_inv & H).
  apply sem_seqs_cons in H as (? & ? & ? & -> & [-> ->]%sem_Lit_inv & H).
  apply sem_Eps_inv in H as [-> ->]. by exists j.
Qed.

Lemma set_identified_ids_same self :
  set_identified_ids self (identified_ids self) = self.
Proof. by destruct self. Qed.

(** [extract_from_script] never raises; it returns the first occurrences of
    the identifiers not seen before and adds them to the set. *)
Lemma extract_from_script_spec self sp :
  extract_from_script self sp =
    (Ok (firsts (identified_ids self) (occurrences sp)),
     set_identified_ids self
       (identified_ids self ∪ list_to_set (occurrences sp).*1)).
Proof.
  unfold extract_from_script, occurrences, find_json_text.
  destruct (soup_find_script sp) as [script_content|]; simpl.
  2: { by rewrite (right_id_L ∅ (∪)), set_identified_ids_same. }
  destruct (search linksData_re script_content) as [json_match|] eqn:Hj; simpl.
  2: { by rewrite (right_id_L ∅ (∪)), set_identified_ids_same. }
  destruct (linksData_group _ _ Hj) as [json_text ->].
  by rewrite extract_loop_firsts by apply finditer_from_record_re.
Qed.

Lemma firsts_not_seen l : ∀ seen c, c ∈ firsts seen l → c.1 ∉ seen.
Proof.
  induction l as [|[id0 n0] l IH]; intros seen c; simpl.
  - by intros ?%elem_of_nil.
  - case_decide; [apply IH|].
    intros [->|Hin%IH]%elem_of_cons; [done|set_solver].
Qed.

Lemma firsts_NoDup l : ∀ seen, NoDup (firsts seen l).*1.
Proof.
  induction l as [|[id0 n0] l IH]; intros seen; simpl; [constructor|].
  case_decide; [apply IH|]. simpl. constructor; [|apply IH].
  intros (c & Hc & Hin%firsts_not_seen)%list_elem_of_fmap.
  simpl in Hc. set_solver.
Qed.

Lemma firsts_elem l : ∀ seen channel_id,
  channel_id ∈ (firsts seen l).*1 ↔ channel_id ∈ l.*1 ∧ channel_id ∉ seen.
Proof.
  induction l as [|[id0 n0] l IH]; intros seen id; simpl.
  - split; [by intros ?%elem_of_nil|by intros [?%elem_of_nil _]].
  - case_decide as Hseen; simpl; rewrite ?elem_of_cons, IH.
    + split; [tauto|]. intros [[->|?] ?]; tauto.
    + rewrite elem_of_union, elem_of_singleton.
      destruct (decide (id = id0)) as [->|]; tauto.
Qed.

Lemma first_occurrence_cons channel_id c l :
  first_occurrence channel_id (c :: l) =
    if decide (c.1 = channel_id) then Some (0%nat, c)
    else prod_map S id <$> first_occurrence channel_id l.
Proof. done. Qed.

(** A kept record is the first record of the list with its identifier. *)
Lemma firsts_first_occurrence l : ∀ seen c,
  c ∈ firsts seen l → ∃ i, first_occurrence c.1 l = Some (i, c).
Proof.
  induction l as [|[id0 n0] l IH]; intros seen c; simpl.
  - by intros ?%elem_of_nil.
  - rewrite first_occurrence_cons. simpl. case_decide as Hseen.
    + intros Hin. pose proof (firsts_not_seen _ _ _ Hin).
      apply IH in Hin as [i ->]. case_decide; [set_solver|]. by exists (S i).
    + intros [->|Hin]%elem_of_cons.
      * simpl. case_decide; [|done]. by exists 0%nat.
      * pose proof (firsts_not_seen _ _ _ Hin).
        apply IH in Hin as [i ->]. case_decide; [set_solver|]. by exists (S i).
Qed.

(** The kept records are in the order of their first occurrences. *)
Lemma firsts_order l : ∀ seen k1 k2 c1 c2 i1 i2 p1 p2,
  (k1 < k2)%nat →
  firsts seen l !! k1 = Some c1 → firsts seen l !! k2 = Some c2 →
  first_occurrence c1.1 l = Some (i1, p1) →
  first_occurrence c2.1 l = Some (i2, p2) →
  (i1 < i2)%nat.
Proof.
  induction l as [|[id0 n0] l IH]; intros seen k1 k2 c1 c2 i1 i2 p1 p2 Hk;
    simpl; [done|].
  rewrite !first_occurrence_cons. simpl. case_decide as Hseen.
  - intros H1 H2.
    pose proof (firsts_not_seen _ _ _ (list_elem_of_lookup_2 _ _ _ H1)).
    pose proof (firsts_not_seen _ _ _ (list_elem_of_lookup_2 _ _ _ H2)).
    do 2 (case_decide; [set_solver|]).
    destruct (first_occurrence c1.1 l) as [[j1 q1]|] eqn:E1; [|done].
    destruct (first_occurrence c2.1 l) as [[j2 q2]|] eqn:E2; [|done].
    intros [= <- <-] [= <- <-].
    apply ->Nat.succ_lt_mono. by eapply (IH seen k1 k2).
  - destruct k2 as [|k2]; [lia|]. simpl. intros H1 H2.
    pose proof (firsts_not_seen _ _ _ (list_elem_of_lookup_2 _ _ _ H2)).
    destruct k1 as [|k1]; simpl in H1.
    + injection H1 as <-. simpl. case_decide; [|done].
      case_decide; [set_solver|].
      destruct (first_occurrence c2.1 l) as [[j2 q2]|]; [|done].
      intros [= <- <-] [= <- <-]. lia.
    + pose proof (firsts_not_seen _ _ _ (list_elem_of_lookup_2 _ _ _ H1)).
      do 2 (case_decide; [set_solver|]).
      destruct (first_occurrence c1.1 l) as [[j1 q1]|] eqn:E1; [|done].
      destruct (first_occurrence c2.1 l) as [[j2 q2]|] eqn:E2; [|done].
      intros [= <- <-] [= <- <-].
      apply ->Nat.succ_lt_mono. eapply (IH _ k1 k2); [lia|done..].
Qed.

(** ** The retry loop *)

Lemma attempts_S u t n :
  attempts u t (S n) = (u, t) :: attempts u (t + 5) n.
Proof.
  unfold attempts. simpl. rewrite Z.add_0_r. f_equal.
  rewrite <-fmap_S_seq. rewrite <-list_fmap_compose.
  apply list_fmap_ext. intros _ k _. simpl. f_equal. lia.
Qed.

Lemma scrape_loop_done E fuel rl chs self w :
  rl < 0 → scrape_loop E fuel rl chs self w = Some (chs, self, w).
Proof. intros ?%Z.ltb_lt. destruct fuel; simpl; by rewrite H. Qed.

Lemma scrape_loop_raised E fuel rl chs self w :
  0 ≤ rl →
  attempt E (length (requests w)) (url self) (timeout self) = None →
  scrape_loop E (S fuel) rl chs self w =
    if rl - 1 <? 0 then Some (chs, self, log_request w (url self) (timeout self))
    else scrape_loop E fuel (rl - 1) chs
           (set_timeout self (timeout self + 5))
           (log_request w (url self) (timeout self)).
Proof.
  intros Hrl Hget. simpl. replace (rl <? 0) with false by (symmetry; apply Z.ltb_ge; lia).
  unfold fetch_content. unfold attempt in Hget.
  destruct (http_get E (length (requests w)) (url self) (timeout self))
    as [content|]; [|done].
  by destruct (BeautifulSoup E content).
Qed.

Lemma scrape_loop_ok E fuel rl chs self w sp :
  0 ≤ rl →
  attempt E (length (requests w)) (url self) (timeout self) = Some sp →
  scrape_loop E (S fuel) rl chs self w =
    Some (chs ++ firsts (identified_ids self) (occurrences sp),
          set_identified_ids self
            (identified_ids self ∪ list_to_set (occurrences sp).*1),
          log_request w (url self) (timeout self)).
Proof.
  intros Hrl Hget. simpl. replace (rl <? 0) with false by (symmetry; apply Z.ltb_ge; lia).
  unfold fetch_content. unfold attempt in Hget.
  destruct (http_get E (length (requests w)) (url self) (timeout self))
    as [content|]; [|done].
  destruct (BeautifulSoup E content) as [sp'|]; [|done].
  injection Hget as ->. by rewrite extract_from_script_spec.
Qed.

Lemma set_timeout_same self t : t = timeout self → set_timeout self t = self.
Proof. intros ->. by destruct self. Qed.

Lemma set_timeout_twice self t1 t2 :
  set_timeout (set_timeout self t1) t2 = set_timeout self t2.
Proof. done. Qed.

(** What every run of the loop does: it ends, its requests are consecutive
    attempts with the timeout widened by 5 each time, and it touches nothing
    but the timeout, the seen set and the request history. *)
Lemma scrape_loop_trace E : ∀ fuel rl chs self w,
  (Z.to_nat (rl + 1) ≤ fuel)%nat →
  ∃ chs' self' w' n,
    scrape_loop E fuel rl chs self w = Some (chs', self', w') ∧
    requests w' = requests w ++ attempts (url self) (timeout self) n ∧
    (n ≤ Z.to_nat (rl + 1))%nat ∧ (0 ≤ rl → (1 ≤ n)%nat) ∧
    timeout self' = timeout self + 5 * Z.of_nat (Nat.pred n) ∧
    identified_ids self ⊆ identified_ids self' ∧
    url self' = url self ∧ retries self' = retries self ∧
    files w' = files w ∧ console w' = console w.
Proof.
  assert (Hstop : ∀ fuel rl chs self w, rl < 0 →
    ∃ chs' self' w' n,
      scrape_loop E fuel rl chs self w = Some (chs', self', w') ∧
      requests w' = requests w ++ attempts (url self) (timeout self) n ∧
      (n ≤ Z.to_nat (rl + 1))%nat ∧ (0 ≤ rl → (1 ≤ n)%nat) ∧
      timeout self' = timeout self + 5 * Z.of_nat (Nat.pred n) ∧
      identified_ids self ⊆ identified_ids self' ∧
      url self' = url self ∧ retries self' = retries self ∧
      files w' = files w ∧ console w' = console w).
  { intros fuel rl chs self w Hneg. exists chs, self, w, 0%nat.
    rewrite scrape_loop_done by done. unfold attempts. simpl.
    rewrite (right_id_L [] (++)). repeat split; try done; lia. }
  induction fuel as [|fuel IH]; intros rl chs self w Hfuel.
  { apply Hstop. lia. }
  destruct (decide (rl < 0)) as [Hneg|Hpos]; [by apply Hstop|].
  destruct (attempt E (length (requests w)) (url self) (timeout self))
    as [sp|] eqn:Hget.
  - eexists _, _, _, 1%nat.
    rewrite (scrape_loop_ok _ _ _ _ _ _ sp) by (done || lia).
    split; [done|]. unfold attempts. simpl. rewrite Z.add_0_r.
    repeat split; try done; try lia. apply union_subseteq_l.
  - rewrite scrape_loop_raised by (done || lia).
    destruct (rl - 1 <? 0) eqn:Hlast.
    + eexists _, _, _, 1%nat. split; [done|]. unfold attempts. simpl.
      rewrite Z.add_0_r. repeat split; try done; lia.
    + apply Z.ltb_ge in Hlast.
      destruct (IH (rl - 1) chs (set_timeout self (timeout self + 5))
                  (log_request w (url self) (timeout self)))
        as (chs' & self' & w' & n & Heq & Hreq & Hn & Hn1 & Ht & Hids & Hu & Hr & Hf & Hc);
        [lia|].
      specialize (Hn1 Hlast).
      exists chs', self', w', (S n). split; [done|].
      rewrite attempts_S. simpl in *. rewrite Hreq, <-(assoc_L (++)).
      repeat split; try done; lia.
Qed.

Lemma scrape_total E self w :
  ∃ chs self' w', scrape E self w = Some (chs, self', w').
Proof.
  destruct (scrape_loop_trace E (Z.to_nat (retries self + 1)) (retries self)
              [] self w) as (chs & self' & w' & n & H & _); [done|].
  by exists chs, self', w'.
Qed.

(** The loop when the attempts fail [j] times and then one succeeds. *)
Lemma scrape_loop_success E sp : ∀ j fuel rl chs self w,
  (∀ i, (i < j)%nat →
     attempt E (length (requests w) + i) (url self)
       (timeout self + 5 * Z.of_nat i) = None) →
  attempt E (length (requests w) + j) (url self)
    (timeout self + 5 * Z.of_nat j) = Some sp →
  Z.of_nat j ≤ rl → (j < fuel)%nat →
  ∃ w',
    scrape_loop E fuel rl chs self w =
      Some (chs ++ firsts (identified_ids self) (occurrences sp),
            set_identified_ids (set_timeout self (timeout self + 5 * Z.of_nat j))
              (identified_ids self ∪ list_to_set (occurrences sp).*1),
            w') ∧
    requests w' = requests w ++ attempts (url self) (timeout self) (S j) ∧
    files w' = files w ∧ console w' = console w.
Proof.
  induction j as [|j IH]; intros fuel rl chs self w Hfail Hok Hrl Hfuel;
    (destruct fuel as [|fuel]; [lia|]).
  - rewrite Nat.add_0_r, Z.add_0_r in Hok.
    rewrite (scrape_loop_ok _ _ _ _ _ _ sp) by (done || lia).
    exists (log_request w (url self) (timeout self)).
    split; [|by rewrite attempts_S].
    rewrite (set_timeout_same self) by lia. done.
  - rewrite scrape_loop_raised; [|lia|].
    2: { specialize (Hfail 0%nat). rewrite Nat.add_0_r, Z.add_0_r in Hfail.
         apply Hfail. lia. }
    replace (rl - 1 <? 0) with false by (symmetry; apply Z.ltb_ge; lia).
    destruct (IH fuel (rl - 1) chs (set_timeout self (timeout self + 5))
                (log_request w (url self) (timeout self)))
      as (w' & -> & Hreq & Hf & Hc); simpl; try lia.
    + intros i Hi. rewrite length_app. simpl.
      specialize (Hfail (S i)).
      replace (length (requests w) + 1 + i)%nat with (length (requests w) + S i)%nat by lia.
      replace (timeout self + 5 + 5 * Z.of_nat i) with (timeout self + 5 * Z.of_nat (S i)) by lia.
      apply Hfail. lia.
    + rewrite length_app. simpl.
      replace (length (requests w) + 1 + j)%nat with (length (requests w) + S j)%nat by lia.
      replace (timeout self + 5 + 5 * Z.of_nat j) with (timeout self + 5 * Z.of_nat (S j)) by lia.
      done.
    + exists w'. split; [|].
      * rewrite set_timeout_twice. do 5 f_equal. lia.
      * rewrite (attempts_S _ _ (S j)). simpl in Hreq.
        by rewrite Hreq, <-(assoc_L (++)).
Qed.

(** The loop when every attempt fails. *)
Lemma scrape_loop_exhausted E : ∀ n fuel rl chs self w,
  rl = Z.of_nat n →
  (∀ i, (i ≤ n)%nat →
     attempt E (length (requests w) + i) (url self)
       (timeout self + 5 * Z.of_nat i) = None) →
  (n < fuel)%nat →
  ∃ w',
    scrape_loop E fuel rl chs self w =
      Some (chs, set_timeout self (timeout self + 5 * rl), w') ∧
    requests w' = requests w ++ attempts (url self) (timeout self) (S n) ∧
    files w' = files w ∧ console w' = console w.
Proof.
  induction n as [|n IH]; intros fuel rl chs self w -> Hfail Hfuel;
    (destruct fuel as [|fuel]; [lia|]);
    (rewrite scrape_loop_raised; [|lia|]).
  - simpl. exists (log_request w (url self) (timeout self)).
    split; [|by rewrite attempts_S].
    rewrite (set_timeout_same self) by lia. done.
  - specialize (Hfail 0%nat). rewrite Nat.add_0_r, Z.add_0_r in Hfail.
    apply Hfail. lia.
  - replace (Z.of_nat (S n) - 1 <? 0) with false by (symmetry; apply Z.ltb_ge; lia).
    destruct (IH fuel (Z.of_nat (S n) - 1) chs (set_timeout self (timeout self + 5))
                (log_request w (url self) (timeout self)))
      as (w' & -> & Hreq & Hf & Hc); simpl; try lia.
    + intros i Hi. rewrite length_app. simpl.
      specialize (Hfail (S i)).
      replace (length (requests w) + 1 + i)%nat with (length (requests w) + S i)%nat by lia.
      replace (timeout self + 5 + 5 * Z.of_nat i) with (timeout self + 5 * Z.of_nat (S i)) by lia.
      apply Hfail. lia.
    + exists w'. split; [|].
      * rewrite set_timeout_twice. do 4 f_equal. lia.
      * rewrite (attempts_S _ _ (S n)). simpl in Hreq.
        by rewrite Hreq, <-(assoc_L (++)).
  - specialize (Hfail 0%nat). rewrite Nat.add_0_r, Z.add_0_r in Hfail.
    apply Hfail. lia.
Qed.

(** ** The writers *)

Lemma unlines_cons l ls : unlines (l :: ls) = l ++ newline :: unlines ls.
Proof. unfold unlines, nl. simpl. by rewrite <-(assoc_L (++)). Qed.

Lemma unlines_app ls1 ls2 : unlines (ls1 ++ ls2) = unlines ls1 ++ unlines ls2.
Proof. unfold unlines. by rewrite map_app, concat_app. Qed.

Lemma write_loop_text (p : text) channels : ∀ f,
  fold_left (λ f (c : channel), let '(channel_id, name) := c in
      let f := f_write f (str "#EXTINF:-1," ++ name ++ nl) in
      f_write f (p ++ channel_id ++ nl)) channels f =
  f ++ unlines (flat_map (λ c : channel, [str "#EXTINF:-1," ++ c.2; p ++ c.1]) channels).
Proof.
  induction channels as [|[channel_id name] channels IH]; intros f.
  - unfold unlines. simpl. by rewrite (right_id_L [] (++)).
  - cbn [fold_left flat_map]. rewrite IH. unfold f_write.
    rewrite unlines_app, !unlines_cons. cbn [fst snd].
    unfold unlines at 2, nl. cbn [map concat].
    rewrite <-!(assoc_L (++)). cbn [app]. rewrite <-!(assoc_L (++)). done.
Qed.

Lemma save_to_file_text self channels filename w :
  save_to_file self channels filename w =
    write_file w filename (unlines (playlist_lines legacy_uri channels)).
Proof.
  unfold save_to_file. f_equal.
  rewrite (write_loop_text (str "http://127.0.0.1:6878/ace/getstream?id=")).
  unfold playlist_lines. by rewrite unlines_cons.
Qed.

Lemma save_to_m3u_text self channels filename w :
  save_to_m3u self channels filename w =
    write_file w filename (unlines (playlist_lines native_uri channels)).
Proof.
  unfold save_to_m3u. f_equal.
  rewrite (write_loop_text (str "acestream://")).
  unfold playlist_lines. by rewrite unlines_cons.
Qed.

(** ** Reading a legacy playlist back *)

Lemma split_unlines ls :
  Forall (λ l, newline ∉ l) ls → split nl (unlines ls) = ls ++ [[]].
Proof.
  unfold split, nl. induction 1 as [|l ls Hl Hls IH]; [done|].
  rewrite unlines_cons, split_from_char by done. simpl. by f_equal.
Qed.

Lemma strip_prefix_app p s : strip_prefix p (p ++ s) = Some s.
Proof.
  induction p as [|a p IH]; simpl; [done|].
  unfold chr_eqb. by rewrite Ascii.eqb_refl.
Qed.

Lemma parse_entries_pair l1 l2 lines :
  parse_entries (l1 :: l2 :: lines) =
    name ← strip_prefix (str "#EXTINF:-1,") l1;
    channel_id ← strip_prefix (str "http://127.0.0.1:6878/ace/getstream?id=") l2;
    channels ← parse_entries lines;
    Some ((channel_id, name) :: channels).
Proof. by destruct l1. Qed.

Lemma parse_entries_lines channels :
  parse_entries
    (flat_map (λ c : channel, [str "#EXTINF:-1," ++ c.2; legacy_uri c.1]) channels
     ++ [[]]) = Some channels.
Proof.
  induction channels as [|[channel_id name] channels IH]; [done|].
  cbn [flat_map app fst snd]. rewrite parse_entries_pair.
  unfold legacy_uri in *. rewrite !strip_prefix_app. cbn [mbind option_bind].
  by rewrite IH.
Qed.

Lemma playlist_lines_no_newline channels :
  Forall no_newline channels →
  Forall (λ l, newline ∉ l) (playlist_lines legacy_uri channels).
Proof.
  intros Hch. unfold playlist_lines. constructor.
  { by apply (bool_decide_unpack _). }
  induction Hch as [|[channel_id name] channels [Hid Hname] _ IH]; [constructor|].
  cbn [flat_map app fst snd] in *. unfold legacy_uri at 1.
  repeat constructor; [| |done]; rewrite not_elem_of_app; (split; [|done]);
    by apply (bool_decide_unpack _).
Qed.

(** The reader recovers the records of a playlist that was written from
    records without newlines. *)
Lemma parse_legacy_unlines channels :
  Forall no_newline channels →
  parse_legacy (unlines (playlist_lines legacy_uri channels)) = Some channels.
Proof.
  intros Hch. unfold parse_legacy.
  rewrite split_unlines by by apply playlist_lines_no_newline.
  unfold playlist_lines. cbn [app]. rewrite bool_decide_eq_true_2 by done.
  apply parse_entries_lines.
Qed.

(** ** The driver *)

Lemma print_channels_files l : ∀ w,
  files (fold_left print_channel l w) = files w ∧
  requests (fold_left print_channel l w) = requests w.
Proof.
  induction l as [|ic l IH]; intros w; [done|]. cbn [fold_left].
  destruct (IH (print_channel w ic)) as [-> ->].
  by destruct ic as [i [channel_id name]].
Qed.

Lemma print_summary_files channels w :
  files (print_summary channels w) = files w.
Proof.
  unfold print_summary. destruct (10 <? length channels)%nat; simpl;
    by rewrite (proj1 (print_channels_files _ _)).
Qed.

Lemma main_empty E w self' w1 :
  scrape E (AceStreamScraper_default main_url) w = Some ([], self', w1) →
  main E w = Some (print w1 (str "No channels found")).
Proof. unfold main. by intros ->. Qed.

Lemma main_nonempty E w channels self' w1 :
  scrape E (AceStreamScraper_default main_url) w = Some (channels, self', w1) →
  channels ≠ [] →
  main E w =
    Some (save_to_m3u self' channels playlist_m3u
            (save_to_file self' channels channels_txt
               (print_summary channels w1))).
Proof.
  unfold main. intros -> Hne. simpl.
  by rewrite bool_decide_eq_false_2.
Qed.

Lemma scrape_frame E self w channels self' w' :
  scrape E self w = Some (channels, self', w') →
  files w' = files w ∧ console w' = console w ∧
  identified_ids self ⊆ identified_ids self'.
Proof.
  unfold scrape. intros Heq.
  destruct (scrape_loop_trace E (Z.to_nat (retries self + 1)) (retries self)
              [] self w) as (? & ? & ? & n & H & _ & _ & _ & _ & ? & _ & _ & ? & ?);
    [done|].
  rewrite Heq in H. by injection H as <- <- <-.
Qed.

(** ** Calls on an instance *)

Lemma perform_ids E c self w :
  ∃ self' w', perform E c self w = Some (self', w') ∧
    identified_ids self ⊆ identified_ids self'.
Proof.
  destruct c as [u|sp| |channels|channels filename|channels filename]; simpl;
    try by eexists _, _.
  - eexists _, _. split; [done|]. rewrite extract_from_script_spec. simpl.
    apply union_subseteq_l.
  - destruct (scrape_total E self w) as (chs & self' & w' & Heq).
    rewrite Heq. simpl. eexists _, _. split; [done|].
    by apply scrape_frame in Heq as (_ & _ & ?).
Qed.

Lemma perform_all_ids E cs : ∀ self w,
  ∃ self' w', perform_all E cs self w = Some (self', w') ∧
    identified_ids self ⊆ identified_ids self'.
Proof.
  induction cs as [|c cs IH]; intros self w; simpl; [by eexists _, _|].
  destruct (perform_ids E c self w) as (self1 & w1 & -> & H1). simpl.
  destruct (IH self1 w1) as (self2 & w2 & -> & H2).
  eexists _, _. split; [done|]. by etrans.
Qed.

(** The records kept are records of the list. *)
Lemma firsts_subseteq l : ∀ seen c, c ∈ firsts seen l → c ∈ l.
Proof.
  induction l as [|[id0 n0] l IH]; intros seen c; simpl; [done|].
  case_decide.
  - intros ?%IH. by right.
  - intros [->|?%IH]%elem_of_cons; [by left|by right].
Qed.

(** Nothing is kept from a list whose identifiers have all been seen. *)
Lemma firsts_all_seen l : ∀ seen,
  (∀ c, c ∈ l → c.1 ∈ seen) → firsts seen l = [].
Proof.
  induction l as [|[id0 n0] l IH]; intros seen Hseen; simpl; [done|].
  case_decide as Hin.
  - apply IH. intros c Hc. apply Hseen. by right.
  - exfalso. apply Hin. apply (Hseen (id0, n0)). by left.
Qed.

(** A match found by [finditer] with the record pattern: where it lies in
    the text, its record, and the extent of its name. *)
Lemma finditer_record_shape json_text m :
  m ∈ finditer record_re json_text →
  ∃ pre s1 s2 name s3 s4 tok s5,
    json_text =
      pre ++ head_text s1 s2 ++ name ++ tail_text s3 s4 tok s5 ++ rest m ∧
    record_of_match m = Some (tok, name) ∧
    spaces s1 ∧ spaces s2 ∧ spaces s3 ∧ spaces s4 ∧ spaces s5 ∧
    token tok ∧ (newline ∉ name) ∧
    ∀ p q, name = p ++ q → q ≠ [] →
      match_at record_tail_re (q ++ tail_text s3 s4 tok s5 ++ rest m) = None.
Proof.
  intros (pre & s & -> & Hm)%finditer_sound.
  pose proof (record_of_match_shape _ _ Hm) as (name' & tok' & Hrec & _ & _).
  apply record_match_shape in Hm
    as (s1 & s2 & name & s3 & s4 & tok & s5 & -> & Hg & ? & ? & ? & ? & ? & Hname & Htok & Hmin).
  exists pre, s1, s2, name, s3, s4, tok, s5.
  repeat split; try done; try apply Htok.
  - unfold record_of_match in *. rewrite Hg in *.
    change (group 1 _) with (Some name).
    change (group 2 _) with (Some (str "acestream://" ++ tok)).
    cbv beta iota delta [mbind option_bind].
    rewrite (split_sep_prefix (str "acestream://") ":"%char tok); [done| |].
    + by apply (bool_decide_unpack _).
    + by apply token_no_colon.
  - by apply dot_no_newline.
Qed.

(** ** The marker *)

Lemma match_at_Lit l : ∀ s,
  match_at (Lit l) s =
    if is_prefix l s then Some {| groups := []; rest := drop (length l) s |}
    else None.
Proof.
  unfold match_at. induction l as [|a l IH]; intros s; simpl.
  - by rewrite drop_0.
  - destruct s as [|b s]; [done|]. destruct (chr_eqb a b); simpl; [apply IH|done].
Qed.

(** [search] with a literal pattern fails exactly on the texts that do not
    contain the literal. *)
Lemma search_Lit_None l s : search (Lit l) s = None ↔ ¬ contains l s.
Proof.
  induction s as [|c s IH]; simpl; rewrite match_at_Lit.
  - destruct (is_prefix l []) eqn:Hp.
    + split; [done|]. intros []. apply is_prefix_spec in Hp as [r Hr].
      by exists [], r.
    + split; [|done]. intros _ (pre & post & Heq).
      destruct pre; [|done]. simpl in Heq.
      assert (is_prefix l [] = true) by (apply is_prefix_spec; eauto).
      congruence.
  - destruct (is_prefix l (c :: s)) eqn:Hp.
    + split; [done|]. intros []. apply is_prefix_spec in Hp as [r Hr].
      by exists [], r.
    + rewrite IH. split; intros Hno (pre & post & Heq); apply Hno.
      * destruct pre as [|c' pre].
        -- simpl in Heq.
           assert (is_prefix l (c :: s) = true) by (apply is_prefix_spec; eauto).
           congruence.
        -- injection Heq as -> ->. by exists pre, post.
      * exists (c :: pre), post. by rewrite Heq.
Qed.

Lemma soup_find_script_None sp :
  (∀ s, Some s ∈ sp → ¬ contains (str "const linksData") s) →
  soup_find_script sp = None.
Proof.
  induction sp as [|[s|] sp IH]; intros Hsp; simpl; [done| |].
  - replace (search marker_re s) with (@None rmatch_result).
    + apply IH. intros s' Hs'. apply Hsp. by right.
    + symmetry. apply search_Lit_None, Hsp. by left.
  - apply IH. intros s' Hs'. apply Hsp. by right.
Qed.

(** * The claims *)

(** C1.  For every document, the list returned by [extract_from_script]
    has pairwise distinct identifiers; each entry is the first record of
    the document with its identifier (so the retained name is the name of
    the first occurrence); the entries are in the order of the first
    occurrences of their identifiers; and the identifiers returned are those
    of the document that the instance had not seen before. *)
Theorem extract_from_script_first_occurrences (self : scraper) (sp : soup) :
  ∃ channels self',
    extract_from_script self sp = (Ok channels, self') ∧
    NoDup channels.*1 ∧
    (∀ c, c ∈ channels →
       ∃ i, first_occurrence c.1 (occurrences sp) = Some (i, c)) ∧
    (∀ k1 k2 c1 c2 i1 i2 p1 p2,
       (k1 < k2)%nat →
       channels !! k1 = Some c1 → channels !! k2 = Some c2 →
       first_occurrence c1.1 (occurrences sp) = Some (i1, p1) →
       first_occurrence c2.1 (occurrences sp) = Some (i2, p2) →
       (i1 < i2)%nat) ∧
    (∀ channel_id,
       channel_id ∈ channels.*1 ↔
       channel_id ∈ (occurrences sp).*1 ∧ channel_id ∉ identified_ids self).
Proof.
  eexists _, _. split; [apply extract_from_script_spec|].
  split; [apply firsts_NoDup|]. split; [apply firsts_first_occurrence|].
  split; [apply firsts_order|apply firsts_elem].
Qed.

(** Scenario B of the spec: the duplicate of [abc123] is dropped and the
    first name is kept. *)
Example extract_sample :
  (extract_from_script (AceStreamScraper_default main_url) sample_soup).1 =
    Ok sample_channels.
Proof. vm_compute. reflexivity. Qed.

(** C2, as amended.  An attempt of a [scrape] call fails when its request
    fails or when the parser raises on the response.  When the first [j]
    attempts fail and, still within the retry budget, the next request
    succeeds with a response that the parser accepts, the call returns what
    [extract_from_script] gives for that response and makes no further
    request, whatever the number of channels; and a document without a
    script containing the marker, or whose marked script does not match the
    [linksData] pattern, yields the empty list without an exception. *)
Theorem scrape_returns_on_success (E : env) (self : scraper) (w : world)
    (j : nat) (content : text) (sp : soup) :
  (∀ i, (i < j)%nat →
     attempt E (length (requests w) + i) (url self)
       (timeout self + 5 * Z.of_nat i) = None) →
  http_get E (length (requests w) + j) (url self)
    (timeout self + 5 * Z.of_nat j) = Some content →
  BeautifulSoup E content = Ok sp →
  Z.of_nat j ≤ retries self →
  (∃ channels self' w',
     extract_from_script (set_timeout self (timeout self + 5 * Z.of_nat j))
       sp = (Ok channels, self') ∧
     scrape E self w = Some (channels, self', w') ∧
     requests w' = requests w ++ attempts (url self) (timeout self) (S j)) ∧
  (∀ self0 sp0,
     (∀ s, Some s ∈ sp0 → ¬ contains (str "const linksData") s) →
     extract_from_script self0 sp0 = (Ok [], self0)) ∧
  (∀ self0 sp0 script_content,
     soup_find_script sp0 = Some script_content →
     search linksData_re script_content = None →
     extract_from_script self0 sp0 = (Ok [], self0)).
Proof.
  intros Hfail Hok Hparse Hj. split; [|split].
  - assert (Hatt : attempt E (length (requests w) + j) (url self)
                     (timeout self + 5 * Z.of_nat j) = Some sp)
      by (unfold attempt; by rewrite Hok, Hparse).
    destruct (scrape_loop_success E sp j (Z.to_nat (retries self + 1))
                (retries self) [] self w Hfail Hatt Hj) as (w' & Heq & Hreq & _);
      [lia|].
    eexists _, _, w'. split; [apply extract_from_script_spec|]. by split.
  - intros self0 sp0 Hsp. unfold extract_from_script.
    by rewrite soup_find_script_None.
  - intros self0 sp0 script_content Hs Hj'. unfold extract_from_script.
    by rewrite Hs, Hj'.
Qed.

(** C3.  When every attempt of a [scrape] call fails, the call ends after
    [retries + 1] attempts (none when [retries] is negative) and returns the
    empty list; nothing is raised, and the seen set and the files are as
    before. *)
Theorem scrape_exhausted (E : env) (self : scraper) (w : world) :
  (∀ i, Z.of_nat i ≤ retries self →
     http_get E (length (requests w) + i) (url self)
       (timeout self + 5 * Z.of_nat i) = None) →
  ∃ self' w',
    scrape E self w = Some ([], self', w') ∧
    requests w' =
      requests w ++
      attempts (url self) (timeout self) (Z.to_nat (retries self + 1)) ∧
    identified_ids self' = identified_ids self ∧
    files w' = files w ∧ console w' = console w.
Proof.
  intros Hfail. unfold scrape.
  destruct (decide (retries self < 0)) as [Hneg|Hpos].
  - exists self, w. rewrite scrape_loop_done by done.
    replace (Z.to_nat (retries self + 1)) with 0%nat by lia.
    unfold attempts. simpl. by rewrite (right_id_L [] (++)).
  - destruct (scrape_loop_exhausted E (Z.to_nat (retries self))
                (Z.to_nat (retries self + 1)) (retries self) [] self w)
      as (w' & Heq & Hreq & Hf & Hc); [lia| |lia|].
    { intros i Hi. unfold attempt. rewrite Hfail by lia. done. }
    eexists _, w'. split; [exact Heq|].
    replace (Z.to_nat (retries self + 1)) with (S (Z.to_nat (retries self))) by lia.
    done.
Qed.

(** C4.  Every [scrape] call ends, and its requests are consecutive
    attempts of which the one at position [k] (from 0) uses the timeout the
    instance had at the start of the call plus [5 * k]; the timeout of the
    instance afterwards is the one of the last attempt, so it was raised by
    5 after each failed attempt that was retried and never lowered. *)
Theorem scrape_timeouts (E : env) (self : scraper) (w : world) :
  ∃ channels self' w' n,
    scrape E self w = Some (channels, self', w') ∧
    requests w' = requests w ++ attempts (url self) (timeout self) n ∧
    (∀ k u t,
       requests w' !! (length (requests w) + k)%nat = Some (u, t) →
       t = timeout self + 5 * Z.of_nat k) ∧
    timeout self' = timeout self + 5 * Z.of_nat (Nat.pred n) ∧
    (n ≤ Z.to_nat (retries self + 1))%nat.
Proof.
  destruct (scrape_loop_trace E (Z.to_nat (retries self + 1)) (retries self)
              [] self w) as (chs & self' & w' & n & Heq & Hreq & Hn & _ & Ht & _);
    [done|].
  exists chs, self', w', n. repeat split; try done.
  intros k u t. rewrite Hreq, lookup_app_r by lia.
  replace (length (requests w) + k - length (requests w))%nat with k by lia.
  unfold attempts. rewrite list_lookup_fmap.
  destruct (seq 0 n !! k) as [k'|] eqn:Hk; [|done].
  apply lookup_seq in Hk as [-> _]. by intros [= _ <-].
Qed.

(** Scenario C of the spec: two failures, then a document with two valid
    records; the third request has timeout 10 + 2 * 5. *)
Example scrape_sample :
  ∃ self' w',
    scrape sample_env (AceStreamScraper_default main_url) empty_world =
      Some (sample_channels, self', w') ∧
    requests w' = [(main_url, 10); (main_url, 15); (main_url, 20)].
Proof. eexists _, _. vm_compute. split; reflexivity. Qed.

(** C5.  The file written by [save_to_file] holds the header line, then for
    each channel in order the [#EXTINF:-1,] line with its name and the
    local-relay line with its identifier; [save_to_m3u] the same with the
    [acestream://] line; for the empty list the file holds the header line
    alone. *)
Theorem writers_content (self : scraper) (channels : list channel)
    (filename : text) (w : world) :
  files (save_to_file self channels filename w) !! filename =
    Some (unlines (playlist_lines legacy_uri channels)) ∧
  files (save_to_m3u self channels filename w) !! filename =
    Some (unlines (playlist_lines native_uri channels)) ∧
  files (save_to_file self [] filename w) !! filename =
    Some (str "#EXTM3U" ++ nl) ∧
  files (save_to_m3u self [] filename w) !! filename =
    Some (str "#EXTM3U" ++ nl).
Proof.
  rewrite !save_to_file_text, !save_to_m3u_text. simpl files.
  rewrite !lookup_insert_eq. done.
Qed.

(** C6, as amended.  For every channel list whose identifiers and names
    contain no newline, reading the file written by [save_to_file] back
    line by line recovers the list, every pair exactly and in order. *)
Theorem legacy_round_trip (self : scraper) (channels : list channel)
    (filename : text) (w : world) :
  Forall no_newline channels →
  files (save_to_file self channels filename w) !! filename ≫= parse_legacy =
    Some channels.
Proof.
  intros Hch. rewrite save_to_file_text. simpl files.
  rewrite lookup_insert_eq. simpl. by apply parse_legacy_unlines.
Qed.

(** The lists that [extract_from_script] returns are of that kind. *)
Lemma extracted_no_newline self sp :
  Forall no_newline (firsts (identified_ids self) (occurrences sp)).
Proof.
  apply Forall_forall. intros c Hc%firsts_subseteq.
  unfold occurrences in Hc. destruct (find_json_text sp) as [json_text|];
    [|by apply elem_of_nil in Hc].
  apply list_elem_of_omap in Hc as (m & Hm & Hrec).
  apply finditer_record_shape in Hm
    as (? & ? & ? & name & ? & ? & tok & ? & _ & Hrec' & _ & _ & _ & _ & _ & Htok & Hname & _).
  rewrite Hrec' in Hrec. injection Hrec as <-.
  split; [by apply token_no_newline|done].
Qed.

(** C7.  Two runs of the extraction on the same document give the same
    ordered list when the seen set is empty at the start of each, whatever
    the other fields of the two instances. *)
Theorem extract_idempotent_fresh (self1 self2 : scraper) (sp : soup) :
  identified_ids self1 = ∅ → identified_ids self2 = ∅ →
  (extract_from_script self1 sp).1 = (extract_from_script self2 sp).1.
Proof.
  intros H1 H2. rewrite !extract_from_script_spec. simpl. by rewrite H1, H2.
Qed.

(** Without a fresh set the second run on the same instance returns
    nothing: this is why the property needs its hypothesis. *)
Lemma extract_again_same_instance self sp :
  (extract_from_script (extract_from_script self sp).2 sp).1 = Ok [].
Proof.
  rewrite !extract_from_script_spec. simpl. f_equal.
  apply firsts_all_seen. intros c Hc. apply elem_of_union. right.
  apply elem_of_list_to_set, list_elem_of_fmap. by exists c.
Qed.

(** C8, as amended.  Every record that [extract_from_script] returns comes
    from a match of the record pattern in the [linksData] text.  Its name
    lies between the opening quote of the name field and a quote followed by
    the rest of the record shape; it is the shortest such text, so no
    shorter prefix of it is followed by a match of the rest of the pattern;
    and it contains no newline.  The identifier is a non-empty run of word
    characters. *)
Theorem extracted_name_extent (self : scraper) (sp : soup)
    (channels : list channel) (self' : scraper) (c : channel) :
  extract_from_script self sp = (Ok channels, self') →
  c ∈ channels →
  ∃ json_text m pre s1 s2 s3 s4 s5,
    find_json_text sp = Some json_text ∧
    m ∈ finditer record_re json_text ∧
    json_text =
      pre ++ head_text s1 s2 ++ c.2 ++ tail_text s3 s4 c.1 s5 ++ rest m ∧
    spaces s1 ∧ spaces s2 ∧ spaces s3 ∧ spaces s4 ∧ spaces s5 ∧
    token c.1 ∧ (newline ∉ c.2) ∧
    ∀ p q, c.2 = p ++ q → q ≠ [] →
      match_at record_tail_re (q ++ tail_text s3 s4 c.1 s5 ++ rest m) = None.
Proof.
  rewrite extract_from_script_spec. intros [= <- _] Hc%firsts_subseteq.
  unfold occurrences in Hc. destruct (find_json_text sp) as [json_text|];
    [|by apply elem_of_nil in Hc].
  apply list_elem_of_omap in Hc as (m & Hm & Hrec).
  pose proof (finditer_record_shape _ _ Hm)
    as (pre & s1 & s2 & name & s3 & s4 & tok & s5 & Hjson & Hrec' & ? & ? & ? & ? & ?
        & Htok & Hname & Hmin).
  rewrite Hrec' in Hrec. injection Hrec as <-. simpl.
  by exists json_text, m, pre, s1, s2, s3, s4, s5.
Qed.

(** C9.  The seen set is empty at construction, no call of a method makes
    it lose an identifier, and so none is lost over any sequence of calls. *)
Theorem identified_ids_monotone :
  (∀ u t r, identified_ids (AceStreamScraper u t r) = ∅) ∧
  (∀ E c self w,
     ∃ self' w', perform E c self w = Some (self', w') ∧
       identified_ids self ⊆ identified_ids self') ∧
  (∀ E cs self w,
     ∃ self' w', perform_all E cs self w = Some (self', w') ∧
       identified_ids self ⊆ identified_ids self').
Proof.
  split; [done|]. split; [apply perform_ids|].
  intros E cs. apply perform_all_ids.
Qed.

(** C10.  [main] writes the two files exactly when [scrape] returned a
    non-empty list: with an empty list the files are those from before the
    run and the console gets the line [No channels found]; otherwise the two
    playlists are written under their default names. *)
Theorem main_writes_iff_channels (E : env) (w : world)
    (channels : list channel) (self' : scraper) (w1 : world) :
  scrape E (AceStreamScraper_default main_url) w = Some (channels, self', w1) →
  ∃ w',
    main E w = Some w' ∧
    (channels = [] →
       files w' = files w ∧
       console w' = console w ++ [str "No channels found"]) ∧
    (channels ≠ [] →
       files w' =
         <[playlist_m3u := unlines (playlist_lines native_uri channels)]>
           (<[channels_txt := unlines (playlist_lines legacy_uri channels)]>
              (files w))).
Proof.
  intros Hs. pose proof (scrape_frame _ _ _ _ _ _ Hs) as (Hf & Hc & _).
  destruct channels as [|c channels].
  - eexists. split; [by apply (main_empty _ _ self' w1)|].
    split; [|done]. intros _. simpl. by rewrite Hf, Hc.
  - eexists. split; [by apply (main_nonempty _ _ (c :: channels) self' w1)|].
    split; [done|]. intros _.
    rewrite save_to_m3u_text, save_to_file_text. simpl files.
    by rewrite print_summary_files, Hf.
Qed.

(** * Instances and counterexamples *)

Lemma scrape_returns_on_success_witness :
  (∀ i, (i < 2)%nat →
     attempt sample_env (length (requests empty_world) + i)
       (url (AceStreamScraper_default main_url))
       (timeout (AceStreamScraper_default main_url) + 5 * Z.of_nat i) = None) ∧
  http_get sample_env (length (requests empty_world) + 2)
    (url (AceStreamScraper_default main_url))
    (timeout (AceStreamScraper_default main_url) + 5 * Z.of_nat 2) =
    Some (str "<html/>") ∧
  BeautifulSoup sample_env (str "<html/>") = Ok sample_soup ∧
  Z.of_nat 2 ≤ retries (AceStreamScraper_default main_url) ∧
  ∃ channels self' w',
    extract_from_script
      (set_timeout (AceStreamScraper_default main_url)
         (timeout (AceStreamScraper_default main_url) + 5 * Z.of_nat 2))
      sample_soup = (Ok channels, self') ∧
    scrape sample_env (AceStreamScraper_default main_url) empty_world =
      Some (channels, self', w') ∧
    requests w' =
      requests empty_world ++
      attempts (url (AceStreamScraper_default main_url))
        (timeout (AceStreamScraper_default main_url)) 3.
Proof.
  assert (H1 : ∀ i, (i < 2)%nat →
     attempt sample_env (length (requests empty_world) + i)
       (url (AceStreamScraper_default main_url))
       (timeout (AceStreamScraper_default main_url) + 5 * Z.of_nat i) = None).
  { intros [|[|i]] Hi; [reflexivity|reflexivity|lia]. }
  assert (H2 : http_get sample_env (length (requests empty_world) + 2)
    (url (AceStreamScraper_default main_url))
    (timeout (AceStreamScraper_default main_url) + 5 * Z.of_nat 2) =
    Some (str "<html/>")) by reflexivity.
  assert (H3 : BeautifulSoup sample_env (str "<html/>") = Ok sample_soup)
    by reflexivity.
  assert (H4 : Z.of_nat 2 ≤ retries (AceStreamScraper_default main_url))
    by (simpl; lia).
  split; [exact H1|]. split; [exact H2|]. split; [exact H3|]. split; [exact H4|].
  exact (proj1 (scrape_returns_on_success sample_env
                  (AceStreamScraper_default main_url) empty_world 2
                  (str "<html/>") sample_soup H1 H2 H3 H4)).
Defined.

Lemma scrape_exhausted_witness :
  (∀ i, Z.of_nat i ≤ retries (AceStreamScraper_default main_url) →
     http_get dead_env (length (requests empty_world) + i)
       (url (AceStreamScraper_default main_url))
       (timeout (AceStreamScraper_default main_url) + 5 * Z.of_nat i) = None) ∧
  ∃ self' w',
    scrape dead_env (AceStreamScraper_default main_url) empty_world =
      Some ([], self', w') ∧
    requests w' =
      requests empty_world ++
      attempts (url (AceStreamScraper_default main_url))
        (timeout (AceStreamScraper_default main_url))
        (Z.to_nat (retries (AceStreamScraper_default main_url) + 1)) ∧
    identified_ids self' = identified_ids (AceStreamScraper_default main_url) ∧
    files w' = files empty_world ∧ console w' = console empty_world.
Proof.
  assert (H1 : ∀ i,
     Z.of_nat i ≤ retries (AceStreamScraper_default main_url) →
     http_get dead_env (length (requests empty_world) + i)
       (url (AceStreamScraper_default main_url))
       (timeout (AceStreamScraper_default main_url) + 5 * Z.of_nat i) = None)
    by (intros; reflexivity).
  split; [exact H1|].
  exact (scrape_exhausted dead_env (AceStreamScraper_default main_url)
           empty_world H1).
Defined.

Lemma legacy_round_trip_witness :
  Forall no_newline sample_channels ∧
  files (save_to_file (AceStreamScraper_default main_url) sample_channels
           channels_txt empty_world) !! channels_txt ≫= parse_legacy =
    Some sample_channels.
Proof.
  assert (H : Forall no_newline sample_channels).
  { repeat constructor; apply (bool_decide_unpack _); vm_compute; exact I. }
  split; [exact H|].
  exact (legacy_round_trip (AceStreamScraper_default main_url) sample_channels
           channels_txt empty_world H).
Defined.

Lemma extract_idempotent_fresh_witness :
  identified_ids (AceStreamScraper main_url 10 3) = ∅ ∧
  identified_ids (AceStreamScraper main_url 30 0) = ∅ ∧
  (extract_from_script (AceStreamScraper main_url 10 3) sample_soup).1 =
  (extract_from_script (AceStreamScraper main_url 30 0) sample_soup).1.
Proof.
  split; [reflexivity|]. split; [reflexivity|].
  exact (extract_idempotent_fresh (AceStreamScraper main_url 10 3)
           (AceStreamScraper main_url 30 0) sample_soup eq_refl eq_refl).
Defined.

Lemma extracted_name_extent_witness :
  extract_from_script (AceStreamScraper_default main_url) quoted_soup =
    (Ok [(str "x1", qstr "a'b")],
     (extract_from_script (AceStreamScraper_default main_url) quoted_soup).2) ∧
  (str "x1", qstr "a'b") ∈ [(str "x1", qstr "a'b")] ∧
  ∃ json_text m pre s1 s2 s3 s4 s5,
    find_json_text quoted_soup = Some json_text ∧
    m ∈ finditer record_re json_text ∧
    json_text =
      pre ++ head_text s1 s2 ++ qstr "a'b" ++
      tail_text s3 s4 (str "x1") s5 ++ rest m ∧
    spaces s1 ∧ spaces s2 ∧ spaces s3 ∧ spaces s4 ∧ spaces s5 ∧
    token (str "x1") ∧ (newline ∉ qstr "a'b") ∧
    ∀ p q, qstr "a'b" = p ++ q → q ≠ [] →
      match_at record_tail_re (q ++ tail_text s3 s4 (str "x1") s5 ++ rest m) =
        None.
Proof.
  assert (H1 : extract_from_script (AceStreamScraper_default main_url) quoted_soup =
    (Ok [(str "x1", qstr "a'b")],
     (extract_from_script (AceStreamScraper_default main_url) quoted_soup).2))
    by (vm_compute; reflexivity).
  assert (H2 : (str "x1", qstr "a'b") ∈ [(str "x1", qstr "a'b")])
    by apply list_elem_of_here.
  split; [exact H1|]. split; [exact H2|].
  exact (extracted_name_extent (AceStreamScraper_default main_url) quoted_soup
           _ _ (str "x1", qstr "a'b") H1 H2).
Defined.

Lemma main_writes_iff_channels_witness :
  scrape dead_env (AceStreamScraper_default main_url) empty_world =
    Some ([], set_timeout (AceStreamScraper_default main_url) 25,
          {| requests := attempts main_url 10 4; files := ∅; console := [] |}) ∧
  ∃ w',
    main dead_env empty_world = Some w' ∧
    (@nil channel = [] →
       files w' = files empty_world ∧
       console w' = console empty_world ++ [str "No channels found"]) ∧
    (@nil channel ≠ [] →
       files w' =
         <[playlist_m3u := unlines (playlist_lines native_uri [])]>
           (<[channels_txt := unlines (playlist_lines legacy_uri [])]>
              (files empty_world))).
Proof.
  assert (H : scrape dead_env (AceStreamScraper_default main_url) empty_world =
    Some ([], set_timeout (AceStreamScraper_default main_url) 25,
          {| requests := attempts main_url 10 4; files := ∅; console := [] |}))
    by (vm_compute; reflexivity).
  split; [exact H|].
  exact (main_writes_iff_channels dead_env empty_world [] _ _ H).
Defined.

(** C2 as stated fails: the first request succeeds, but the parser raises
    on the response, and the call goes on to make three more requests, each
    with the timeout raised by 5, before it returns the empty list. *)
Lemma scrape_retries_when_parser_raises :
  http_get rejected_env (length (requests empty_world))
    (url (AceStreamScraper_default main_url))
    (timeout (AceStreamScraper_default main_url)) =
    Some (str "<![foo bar]>") ∧
  ∃ self' w',
    scrape rejected_env (AceStreamScraper_default main_url) empty_world =
      Some ([], self', w') ∧
    requests w' =
      [(main_url, 10); (main_url, 15); (main_url, 20); (main_url, 25)] ∧
    requests w' ≠ attempts main_url 10 1.
Proof.
  split; [reflexivity|]. eexists _, _. vm_compute.
  split; [reflexivity|]. split; [reflexivity|discriminate].
Qed.

(** C6 as stated fails: a name may hold newlines, and then the file reads
    back as other records; the same file is written for those records, so
    no reader can tell the two lists apart. *)
Lemma legacy_round_trip_fails :
  files (save_to_file (AceStreamScraper_default main_url) ambiguous_channels
           channels_txt empty_world) !! channels_txt ≫= parse_legacy ≠
    Some ambiguous_channels ∧
  files (save_to_file (AceStreamScraper_default main_url) ambiguous_channels
           channels_txt empty_world) !! channels_txt =
  files (save_to_file (AceStreamScraper_default main_url) ambiguous_reading
           channels_txt empty_world) !! channels_txt ∧
  ambiguous_channels ≠ ambiguous_reading.
Proof.
  split; [|split].
  - rewrite save_to_file_text. simpl files. rewrite lookup_insert_eq.
    vm_compute. discriminate.
  - rewrite !save_to_file_text. simpl files. rewrite !lookup_insert_eq.
    vm_compute. reflexivity.
  - vm_compute. discriminate.
Qed.

(** C8 as stated fails: a record whose name field has quotes inside is
    matched by the record pattern, and the extracted name holds a double
    quote. *)
Lemma quoted_name_extracted :
  match_at record_re quoted_record ≠ None ∧
  (extract_from_script (AceStreamScraper_default main_url) quoted_soup).1 =
    Ok [(str "x1", qstr "a'b")] ∧
  dquote ∈ qstr "a'b".
Proof.
  split; [|split].
  - vm_compute. discriminate.
  - vm_compute. reflexivity.
  - apply (bool_decide_unpack _). vm_compute. exact I.
Qed.

(** * Further properties of the script *)

(** ** format_output *)

Lemma name_id_keys : str "name" ≠ str "id".
Proof. vm_compute. discriminate. Qed.

Lemma channel_of_dict_insert channel_id name :
  channel_of_dict (<[str "name" := name]> (<[str "id" := channel_id]> ∅)) =
    Some (channel_id, name).
Proof.
  unfold channel_of_dict.
  rewrite (lookup_insert_ne _ (str "name") (str "id")) by apply name_id_keys.
  rewrite !lookup_insert_eq. done.
Qed.

(** X1.  [format_output] gives one dictionary per channel, in order; each
    has exactly the keys [name] and [id], bound to the name and the
    identifier of its channel, so the channels can be read back from it. *)
Theorem format_output_entries (self : scraper) (channels : list channel) :
  length (format_output self channels) = length channels ∧
  Forall (λ d : gmap text text, dom d = {[str "name"]} ∪ {[str "id"]})
    (format_output self channels) ∧
  channel_of_dict <$> format_output self channels = Some <$> channels.
Proof.
  unfold format_output. split; [by rewrite length_map|]. split.
  - apply Forall_forall. intros d (c & -> & _)%list_elem_of_fmap.
    destruct c as [channel_id name].
    rewrite !dom_insert_L, dom_empty_L. set_solver.
  - induction channels as [|c channels IH]; [done|].
    cbn [map fmap list_fmap]. f_equal; [|exact IH].
    destruct c as [channel_id name]. apply channel_of_dict_insert.
Qed.

(** ** The seen set and what the extractor returns *)

Lemma firsts_ids_union seen l :
  seen ∪ list_to_set (firsts seen l).*1 = seen ∪ list_to_set l.*1.
Proof.
  apply set_eq. intros x.
  rewrite !elem_of_union, !elem_of_list_to_set, firsts_elem.
  destruct (decide (x ∈ seen)); tauto.
Qed.

(** X3.  [extract_from_script] adds to the seen set exactly the identifiers
    it returns, and returns none that the instance had seen; the other
    fields of the instance are left alone. *)
Theorem extract_records_what_it_returns (self : scraper) (sp : soup) :
  ∃ channels self',
    extract_from_script self sp = (Ok channels, self') ∧
    identified_ids self' = identified_ids self ∪ list_to_set channels.*1 ∧
    (∀ channel_id, channel_id ∈ channels.*1 → channel_id ∉ identified_ids self) ∧
    url self' = url self ∧ timeout self' = timeout self ∧
    retries self' = retries self.
Proof.
  eexists _, _. split; [apply extract_from_script_spec|]. simpl.
  split; [by rewrite firsts_ids_union|]. split; [|done].
  intros channel_id Hin. by apply firsts_elem in Hin as [_ ?].
Qed.

Lemma firsts_app_NoDup seen l1 l2 :
  NoDup (firsts seen l1 ++
         firsts (seen ∪ list_to_set l1.*1) l2).*1.
Proof.
  rewrite fmap_app. apply NoDup_app. split; [apply firsts_NoDup|].
  split; [|apply firsts_NoDup].
  intros x [H1 _]%firsts_elem [_ H2]%firsts_elem. apply H2.
  apply elem_of_union. right. by apply elem_of_list_to_set.
Qed.

(** X4.  Two extractions in a row on one instance, on any two documents,
    never return the same identifier twice. *)
Theorem extract_twice_distinct (self : scraper) (sp1 sp2 : soup) :
  ∃ channels1 self1 channels2 self2,
    extract_from_script self sp1 = (Ok channels1, self1) ∧
    extract_from_script self1 sp2 = (Ok channels2, self2) ∧
    NoDup (channels1 ++ channels2).*1 ∧
    identified_ids self2 =
      identified_ids self ∪ list_to_set (channels1 ++ channels2).*1.
Proof.
  eexists _, _, _, _. split; [apply extract_from_script_spec|].
  split; [apply extract_from_script_spec|]. simpl.
  split; [apply firsts_app_NoDup|].
  rewrite fmap_app, list_to_set_app_L, (assoc_L (∪)).
  by rewrite !firsts_ids_union.
Qed.

(** ** What a [scrape] call returns *)

(** The loop returns what it was given, or adds to it the extraction of one
    response. *)
Lemma scrape_loop_result E : ∀ fuel rl chs self w chs' self' w',
  scrape_loop E fuel rl chs self w = Some (chs', self', w') →
  (chs' = chs ∧ identified_ids self' = identified_ids self) ∨
  (∃ sp,
     chs' = chs ++ firsts (identified_ids self) (occurrences sp) ∧
     identified_ids self' =
       identified_ids self ∪ list_to_set (occurrences sp).*1).
Proof.
  induction fuel as [|fuel IH]; intros rl chs self w chs' self' w'.
  - simpl. destruct (rl <? 0); [|done]. intros [= <- <- <-]. by left.
  - destruct (decide (rl < 0)) as [Hneg|Hpos].
    { rewrite scrape_loop_done by done. intros [= <- <- <-]. by left. }
    destruct (attempt E (length (requests w)) (url self) (timeout self))
      as [sp|] eqn:Hget.
    + rewrite (scrape_loop_ok _ _ _ _ _ _ sp) by (done || lia).
      intros [= <- <- <-]. right. by exists sp.
    + rewrite scrape_loop_raised by (done || lia).
      destruct (rl - 1 <? 0); [intros [= <- <- <-]; by left|].
      intros H. by apply IH in H.
Qed.

Lemma firsts_well_formed seen sp :
  Forall well_formed (firsts seen (occurrences sp)).
Proof.
  apply Forall_forall. intros c Hc%firsts_subseteq.
  unfold occurrences in Hc. destruct (find_json_text sp) as [json_text|];
    [|by apply elem_of_nil in Hc].
  apply list_elem_of_omap in Hc as (m & Hm & Hrec).
  apply finditer_record_shape in Hm
    as (? & ? & ? & name & ? & ? & tok & ? & _ & Hrec' & _ & _ & _ & _ & _ & Htok & Hname & _).
  rewrite Hrec' in Hrec. injection Hrec as <-. by split.
Qed.

(** Everything the later statements need about one call. *)
Lemma scrape_facts E self w :
  ∃ channels self' w' n,
    scrape E self w = Some (channels, self', w') ∧
    requests w' = requests w ++ attempts (url self) (timeout self) n ∧
    (n ≤ Z.to_nat (retries self + 1))%nat ∧
    (0 ≤ retries self → (1 ≤ n)%nat) ∧
    timeout self' = timeout self + 5 * Z.of_nat (Nat.pred n) ∧
    url self' = url self ∧ retries self' = retries self ∧
    files w' = files w ∧ console w' = console w ∧
    NoDup channels.*1 ∧
    (∀ channel_id, channel_id ∈ channels.*1 → channel_id ∉ identified_ids self) ∧
    identified_ids self' = identified_ids self ∪ list_to_set channels.*1 ∧
    Forall well_formed channels.
Proof.
  destruct (scrape_loop_trace E (Z.to_nat (retries self + 1)) (retries self)
              [] self w)
    as (chs & self' & w' & n & Heq & Hreq & Hn & Hn1 & Ht & _ & Hu & Hr & Hf & Hc);
    [done|].
  exists chs, self', w', n. do 9 (split; [done|]).
  apply scrape_loop_result in Heq as [[-> Hids]|(content & -> & Hids)].
  - rewrite Hids. simpl. split; [constructor|]. split; [by intros ? ?%elem_of_nil|].
    split; [by rewrite (right_id_L ∅ (∪))|constructor].
  - simpl. split; [apply firsts_NoDup|].
    split; [intros channel_id Hin; by apply firsts_elem in Hin as [_ ?]|].
    split; [by rewrite Hids, firsts_ids_union|apply firsts_well_formed].
Qed.

(** X5.  The channels that [scrape] returns have pairwise distinct
    identifiers, none of them seen by the instance before the call and all of
    them seen after it; every identifier is a non-empty run of word
    characters and no name has a newline. *)
Theorem scrape_channels_fresh (E : env) (self : scraper) (w : world) :
  ∃ channels self' w',
    scrape E self w = Some (channels, self', w') ∧
    NoDup channels.*1 ∧
    (∀ channel_id, channel_id ∈ channels.*1 → channel_id ∉ identified_ids self) ∧
    identified_ids self' = identified_ids self ∪ list_to_set channels.*1 ∧
    Forall well_formed channels.
Proof.
  destruct (scrape_facts E self w)
    as (chs & self' & w' & n & Heq & _ & _ & _ & _ & _ & _ & _ & _ & ? & ? & ? & ?).
  by exists chs, self', w'.
Qed.

(** X6.  A second [scrape] call on the same instance returns no identifier
    that the first call returned, and it starts from the timeout the first
    call left: the timeout is not reset between calls. *)
Theorem scrape_twice_distinct (E : env) (self : scraper) (w : world) :
  ∃ channels1 self1 w1 channels2 self2 w2 n2,
    scrape E self w = Some (channels1, self1, w1) ∧
    scrape E self1 w1 = Some (channels2, self2, w2) ∧
    NoDup (channels1 ++ channels2).*1 ∧
    requests w2 = requests w1 ++ attempts (url self) (timeout self1) n2 ∧
    timeout self ≤ timeout self1 ∧ timeout self1 ≤ timeout self2.
Proof.
  destruct (scrape_facts E self w)
    as (c1 & s1 & w1 & n1 & Heq1 & _ & _ & _ & Ht1 & Hu1 & _ & _ & _ & Hnd1 & _ & Hids1 & _).
  destruct (scrape_facts E s1 w1)
    as (c2 & s2 & w2 & n2 & Heq2 & Hreq2 & _ & _ & Ht2 & _ & _ & _ & _ & Hnd2 & Hfresh2 & _ & _).
  exists c1, s1, w1, c2, s2, w2, n2. rewrite Hu1 in Hreq2.
  repeat split; try done; try lia.
  rewrite fmap_app. apply NoDup_app. split; [done|]. split; [|done].
  intros x Hx1 Hx2. apply (Hfresh2 x Hx2). rewrite Hids1.
  apply elem_of_union. right. by apply elem_of_list_to_set.
Qed.

(** X7.  With a negative [retries] a [scrape] call makes no request and
    returns the empty list, leaving the instance and the world as they were;
    otherwise it makes at least one request and at most [retries + 1].  In
    both cases it leaves the url, the retry count, the files and the console
    alone. *)
Theorem scrape_request_budget (E : env) (self : scraper) (w : world) :
  ∃ channels self' w' n,
    scrape E self w = Some (channels, self', w') ∧
    requests w' = requests w ++ attempts (url self) (timeout self) n ∧
    (retries self < 0 → n = 0%nat ∧ channels = [] ∧ self' = self ∧ w' = w) ∧
    (0 ≤ retries self → (1 ≤ n)%nat ∧ Z.of_nat n ≤ retries self + 1) ∧
    url self' = url self ∧ retries self' = retries self ∧
    files w' = files w ∧ console w' = console w.
Proof.
  destruct (decide (retries self < 0)) as [Hneg|Hpos].
  - exists [], self, w, 0%nat. unfold scrape. rewrite scrape_loop_done by done.
    unfold attempts. simpl. rewrite (right_id_L [] (++)).
    repeat split; try done; lia.
  - destruct (scrape_facts E self w)
      as (chs & self' & w' & n & Heq & Hreq & Hn & Hn1 & _ & ? & ? & ? & ? & _).
    exists chs, self', w', n. repeat split; try done; try lia.
Qed.

(** ** Which script is read *)

Lemma search_Lit_Some l s : contains l s → is_Some (search (Lit l) s).
Proof.
  intros Hc. destruct (search (Lit l) s) eqn:Hs; [by eexists|].
  by apply search_Lit_None in Hs.
Qed.

Lemma search_Lit_contains l s m : search (Lit l) s = Some m → contains l s.
Proof.
  intros (pre & w & -> & [-> _]%sem_Lit_inv)%search_sound.
  by exists pre, (rest m).
Qed.

Lemma soup_find_script_first sp1 s sp2 :
  (∀ s', Some s' ∈ sp1 → ¬ contains (str "const linksData") s') →
  contains (str "const linksData") s →
  soup_find_script (sp1 ++ Some s :: sp2) = Some s.
Proof.
  intros Hsp1 Hs. induction sp1 as [|[s'|] sp1 IH]; cbn [app soup_find_script].
  - destruct (search_Lit_Some _ _ Hs) as [m Hm]. unfold marker_re.
    by rewrite Hm.
  - replace (search marker_re s') with (@None rmatch_result).
    + apply IH. intros s'' Hs''. apply Hsp1. by right.
    + symmetry. apply search_Lit_None, Hsp1. by left.
  - apply IH. intros s'' Hs''. apply Hsp1. by right.
Qed.

Lemma soup_find_script_elem sp s :
  soup_find_script sp = Some s →
  Some s ∈ sp ∧ contains (str "const linksData") s.
Proof.
  induction sp as [|[s'|] sp IH]; cbn [soup_find_script]; [done| |].
  - destruct (search marker_re s') eqn:Hs'.
    + intros [= ->]. split; [by left|]. by eapply search_Lit_contains.
    + intros [? ?]%IH. split; [by right|done].
  - intros [? ?]%IH. split; [by right|done].
Qed.

(** X8.  Only the first script that contains the marker is read: the
    scripts before it, which do not contain it, and all the scripts after it
    make no difference to the result. *)
Theorem first_marked_script_wins (self : scraper) (sp1 sp2 : soup) (s : text) :
  (∀ s', Some s' ∈ sp1 → ¬ contains (str "const linksData") s') →
  contains (str "const linksData") s →
  extract_from_script self (sp1 ++ Some s :: sp2) =
    extract_from_script self [Some s].
Proof.
  intros Hsp1 Hs. unfold extract_from_script.
  assert (Hone : soup_find_script [Some s] = Some s).
  { apply (soup_find_script_first [] s []); [|done]. by intros s' ?%elem_of_nil. }
  by rewrite (soup_find_script_first sp1 s sp2 Hsp1 Hs), Hone.
Qed.

(** X9.  The text handed to the record pattern comes from a script of the
    document that contains the marker: in that script it follows
    [const linksData], an equals sign and optional whitespace, and is
    followed by a semicolon; it starts with an opening brace and ends with a
    closing brace and optional whitespace. *)
Theorem json_text_shape (sp : soup) (json_text : text) :
  find_json_text sp = Some json_text →
  ∃ script pre s1 s2 body s3 post,
    Some script ∈ sp ∧
    script =
      pre ++ str "const linksData" ++ s1 ++ str "=" ++ s2 ++
      json_text ++ str ";" ++ post ∧
    json_text = str "{" ++ body ++ str "}" ++ s3 ∧
    spaces s1 ∧ spaces s2 ∧ spaces s3.
Proof.
  unfold find_json_text.
  destruct (soup_find_script sp) as [script|] eqn:Hscript; [|done].
  apply soup_find_script_elem in Hscript as [Hin _]. cbn [mbind option_bind].
  destruct (search linksData_re script) as [m|] eqn:Hm; [|done].
  cbn [mbind option_bind].
  apply search_sound in Hm as (pre & w & -> & H). unfold linksData_re in H.
  apply sem_seqs_cons in H as (? & ? & ? & -> & [-> ->]%sem_Lit_inv & H).
  apply sem_seqs_cons in H as (s1 & ? & ? & -> & [H1 ->]%sem_Star_inv & H).
  apply sem_seqs_cons in H as (? & ? & ? & -> & [-> ->]%sem_Lit_inv & H).
  apply sem_seqs_cons in H as (s2 & ? & ? & -> & [H2 ->]%sem_Star_inv & H).
  apply sem_seqs_cons in H as (j & ? & ? & -> & (cs1 & Hj & ->)%sem_Group_inv & H).
  apply sem_seqs_cons in H as (? & ? & ? & -> & [-> ->]%sem_Lit_inv & H).
  apply sem_Eps_inv in H as [-> Hg].
  apply sem_seqs_cons in Hj as (? & ? & ? & -> & [-> ->]%sem_Lit_inv & Hj).
  apply sem_seqs_cons in Hj as (body & ? & ? & -> & [_ ->]%sem_Star_inv & Hj).
  apply sem_seqs_cons in Hj as (? & ? & ? & -> & [-> ->]%sem_Lit_inv & Hj).
  apply sem_seqs_cons in Hj as (s3 & ? & ? & -> & [H3 ->]%sem_Star_inv & Hj).
  apply sem_Eps_inv in Hj as [-> ->].
  rewrite Hg. rewrite !(right_id_L [] (++)) in *.
  intros Hsome.
  assert (json_text = str "{" ++ body ++ str "}" ++ s3) as ->
    by (by injection Hsome).
  rewrite <-!(assoc_L (++)) in Hin.
  eexists _, pre, s1, s2, body, s3, (rest m).
  split; [exact Hin|]. by rewrite <-!(assoc_L (++)).
Qed.

(** ** Records that the pattern finds *)

Lemma runs_Eps s cs : runs Eps [] s cs cs.
Proof. by intros A k a Hk. Qed.

Lemma runs_Chr (p : ascii → bool) c s cs :
  p c = true → runs (Chr p) [c] s cs cs.
Proof. intros Hp A k a Hk. simpl. by rewrite Hp. Qed.

Lemma runs_Seq r1 r2 w1 w2 s cs cs1 cs2 :
  runs r1 w1 (w2 ++ s) cs cs1 → runs r2 w2 s cs1 cs2 →
  runs (Seq r1 r2) (w1 ++ w2) s cs cs2.
Proof.
  intros H1 H2 A k a Hk. rewrite <-(assoc_L (++)). simpl.
  apply H1. by apply H2.
Qed.

Lemma runs_Lit l s cs : runs (Lit l) l s cs cs.
Proof.
  induction l as [|c l IH]; simpl; [apply runs_Eps|].
  apply (runs_Seq _ _ [c] l s cs cs cs); [|done].
  apply runs_Chr. unfold chr_eqb. apply Ascii.eqb_refl.
Qed.

Lemma runs_Star_Greedy p w s cs :
  Forall (λ c, p c = true) w → stops p s → runs (Star Greedy p) w s cs cs.
Proof.
  intros Hw Hs A k a Hk. simpl. induction Hw as [|c w Hc Hw IH]; simpl.
  - destruct s as [|c s]; simpl; [done|]. simpl in Hs. by rewrite Hs.
  - by rewrite Hc, IH.
Qed.

Lemma runs_Group n r w s cs cs' :
  runs r w s cs cs' → runs (Group n r) w s cs ((n, w) :: cs').
Proof.
  intros H A k a Hk. simpl. apply H.
  rewrite length_app.
  replace (length w + length s - length s)%nat with (length w) by lia.
  by rewrite take_app_length.
Qed.

Lemma runs_seqs_cons r rs w1 w2 s cs cs1 cs2 :
  runs r w1 (w2 ++ s) cs cs1 → runs (seqs rs) w2 s cs1 cs2 →
  runs (seqs (r :: rs)) (w1 ++ w2) s cs cs2.
Proof. apply runs_Seq. Qed.

Lemma runs_seqs_last r w s cs cs' :
  runs r w s cs cs' → runs (seqs [r]) w s cs cs'.
Proof.
  intros H. rewrite <-(right_id_L [] (++) w).
  apply (runs_Seq _ _ w [] s cs cs' cs'); [done|apply runs_Eps].
Qed.

(** The lazy repetition stops where the continuation first succeeds. *)
Lemma star_lazy_first {A} p w s cs (k : @cont A) a :
  Forall (λ c, p c = true) w →
  (∀ w1 w2, w = w1 ++ w2 → w2 ≠ [] → k (w2 ++ s) cs = None) →
  k s cs = Some a →
  star_match Lazy p (w ++ s) cs k = Some a.
Proof.
  intros Hw. induction Hw as [|c w Hc Hw IH]; intros Hmin Hk.
  - destruct s; simpl; by rewrite Hk.
  - assert (H0 : k (c :: w ++ s) cs = None) by by apply (Hmin [] (c :: w)).
    cbn [app star_match]. rewrite H0, Hc.
    apply IH; [|done]. intros w1 w2 -> Hw2. by apply (Hmin (c :: w1) w2).
Qed.

Lemma rmatch_Lit_mismatch {A} a l c s cs (k : @cont A) r :
  chr_eqb a c = false → rmatch (Seq (Lit (a :: l)) r) (c :: s) cs k = None.
Proof. intros H. simpl. by rewrite H. Qed.

Lemma token_runs tok s cs :
  token tok → stops is_word_or_digit s →
  runs (Plus is_word_or_digit) tok s cs cs.
Proof.
  intros [Hne Htok] Hs. destruct tok as [|c tok]; [done|].
  apply Forall_cons in Htok as [Hc Htok].
  apply (runs_Seq _ _ [c] tok s cs cs cs); [by apply runs_Chr|].
  by apply runs_Star_Greedy.
Qed.

Lemma record_tail_runs s3 s4 tok s5 rest0 cs :
  spaces s3 → spaces s4 → spaces s5 → token tok →
  runs record_tail_re (tail_text s3 s4 tok s5) rest0 cs
    ((2%nat, str "acestream://" ++ tok) :: cs).
Proof.
  intros H3 H4 H5 Htok. unfold record_tail_re, tail_text.
  eapply runs_seqs_cons; [apply runs_Lit|].
  eapply runs_seqs_cons; [by apply runs_Star_Greedy|].
  eapply runs_seqs_cons; [apply runs_Lit|].
  eapply runs_seqs_cons; [by apply runs_Star_Greedy|].
  eapply runs_seqs_cons; [apply runs_Lit|].
  eapply runs_seqs_cons.
  { apply runs_Group. eapply runs_Seq; [apply runs_Lit|]. by apply token_runs. }
  eapply runs_seqs_cons; [apply runs_Lit|].
  eapply runs_seqs_cons; [by apply runs_Star_Greedy|].
  apply runs_seqs_last, runs_Lit.
Qed.

Lemma record_of_match_groups tok name rest0 :
  token tok →
  record_of_match
    {| groups := [(2%nat, str "acestream://" ++ tok); (1%nat, name)];
       rest := rest0 |} = Some (tok, name).
Proof.
  intros Htok. unfold record_of_match. cbn [groups].
  change (group 1 _) with (Some name).
  change (group 2 _) with (Some (str "acestream://" ++ tok)).
  cbv beta iota delta [mbind option_bind].
  rewrite (split_sep_prefix (str "acestream://") ":"%char tok); [done| |].
  - by apply (bool_decide_unpack _).
  - by apply token_no_colon.
Qed.

Lemma record_runs s1 s2 name s3 s4 tok s5 rest0 :
  spaces s1 → spaces s2 → spaces s3 → spaces s4 → spaces s5 →
  token tok → dquote ∉ name → newline ∉ name →
  match_at record_re
    (head_text s1 s2 ++ name ++ tail_text s3 s4 tok s5 ++ rest0) =
    Some {| groups := [(2%nat, str "acestream://" ++ tok); (1%nat, name)];
            rest := rest0 |}.
Proof.
  intros H1 H2 H3 H4 H5 Htok Hq Hnl.
  unfold match_at, record_re, head_text. rewrite <-!(assoc_L (++)).
  rewrite rmatch_seqs_cons. apply runs_Lit.
  rewrite rmatch_seqs_cons. apply runs_Star_Greedy; [done..|].
  rewrite rmatch_seqs_cons. apply runs_Lit.
  rewrite rmatch_seqs_cons. apply runs_Star_Greedy; [done..|].
  rewrite rmatch_seqs_cons. apply runs_Lit.
  rewrite rmatch_seqs_cons. cbn [rmatch].
  apply star_lazy_first.
  - apply Forall_forall. intros c Hc. unfold dot, chr_eqb.
    apply negb_true_iff, Ascii.eqb_neq. by intros ->.
  - intros w1 [|c w2] -> Hw2; [done|]. rewrite <-app_comm_cons.
    rewrite rmatch_seqs_cons. unfold record_tail_re. rewrite rmatch_seqs_cons.
    apply rmatch_Lit_mismatch. unfold chr_eqb. apply Ascii.eqb_neq.
    intros <-. apply Hq. apply elem_of_app. right. by left.
  - rewrite length_app.
    replace (length name + length (tail_text s3 s4 tok s5 ++ rest0)
             - length (tail_text s3 s4 tok s5 ++ rest0))%nat
      with (length name) by lia.
    rewrite take_app_length.
    by apply (runs_seqs_last _ _ _ _ _ (record_tail_runs s3 s4 tok s5 rest0 _ H3 H4 H5 Htok)).
Qed.

(** X10.  A record of the expected shape whose name has no double quote and
    no newline is matched where it starts: the match captures exactly its
    name and its token, [finditer] yields it first and goes on right after
    it. *)
Theorem well_formed_record_matched (s1 s2 name s3 s4 tok s5 rest0 : text) :
  spaces s1 → spaces s2 → spaces s3 → spaces s4 → spaces s5 →
  token tok → dquote ∉ name → newline ∉ name →
  ∃ m,
    match_at record_re
      (head_text s1 s2 ++ name ++ tail_text s3 s4 tok s5 ++ rest0) = Some m ∧
    record_of_match m = Some (tok, name) ∧
    rest m = rest0 ∧
    finditer record_re
      (head_text s1 s2 ++ name ++ tail_text s3 s4 tok s5 ++ rest0) =
      m :: finditer record_re rest0.
Proof.
  intros H1 H2 H3 H4 H5 Htok Hq Hnl.
  pose proof (record_runs s1 s2 name s3 s4 tok s5 rest0 H1 H2 H3 H4 H5 Htok Hq Hnl)
    as Hm.
  eexists. split; [exact Hm|]. split; [by apply record_of_match_groups|].
  split; [done|].
  assert (Hlen : (length rest0 <
      length (head_text s1 s2 ++ name ++ tail_text s3 s4 tok s5 ++ rest0))%nat).
  { apply record_match_advances in Hm. exact Hm. }
  set (after := finditer record_re rest0).
  unfold finditer. cbn [finditer_fuel]. rewrite Hm. cbn [rest].
  rewrite decide_True by done. f_equal.
  subst after. unfold finditer. apply finditer_fuel_enough; lia.
Qed.

(** ** What [main] prints and requests *)

Lemma print_channels_console l : ∀ k w,
  console (fold_left print_channel (zip (seq k (length l)) l) w) =
    console w ++
    imap (λ i (c : channel),
            decimal (k + i) ++ str ". " ++ c.2 ++ str ": acestream://" ++ c.1) l.
Proof.
  induction l as [|[channel_id name] l IH]; intros k w.
  - simpl. by rewrite (right_id_L [] (++)).
  - cbn [length seq zip zip_with fold_left imap]. rewrite IH.
    cbn [print_channel print console fst snd]. rewrite <-(assoc_L (++)).
    cbn [app]. rewrite Nat.add_0_r. do 2 f_equal.
    apply imap_ext. intros i c _. simpl. by rewrite Nat.add_succ_r.
Qed.

Lemma print_summary_console channels w :
  console (print_summary channels w) = console w ++ summary_lines channels.
Proof.
  unfold print_summary, summary_lines, enumerate1.
  destruct (10 <? length channels)%nat; cbn [print console];
    rewrite print_channels_console; cbn [print console];
    rewrite ?(right_id_L [] (++)); by rewrite <-!(assoc_L (++)).
Qed.

Lemma print_summary_requests channels w :
  requests (print_summary channels w) = requests w.
Proof.
  unfold print_summary. destruct (10 <? length channels)%nat; simpl;
    by rewrite (proj2 (print_channels_files _ _)).
Qed.

Lemma summary_lines_length channels :
  length (summary_lines channels) =
    (1 + length channels `min` 10 +
     if (10 <? length channels)%nat then 1 else 0)%nat.
Proof.
  unfold summary_lines. rewrite !length_app, length_imap, length_take.
  destruct (10 <? length channels)%nat; cbn [length]; lia.
Qed.

(** X11.  For a non-empty result [main] prints the count, then the channels
    numbered from 1 as [<n>. <name>: acestream://<id>], at most ten of them,
    then the number of the remaining ones when there are more than ten: at
    most twelve lines, added after what the console held. *)
Theorem main_console_summary (E : env) (w : world) (channels : list channel)
    (self' : scraper) (w1 : world) :
  scrape E (AceStreamScraper_default main_url) w = Some (channels, self', w1) →
  channels ≠ [] →
  ∃ w',
    main E w = Some w' ∧
    console w' = console w ++ summary_lines channels ∧
    length (summary_lines channels) =
      (1 + length channels `min` 10 +
       if (10 <? length channels)%nat then 1 else 0)%nat ∧
    (∀ i (c : channel), (i < 10)%nat → channels !! i = Some c →
       summary_lines channels !! S i =
         Some (decimal (S i) ++ str ". " ++ c.2 ++ str ": acestream://" ++ c.1)).
Proof.
  intros Hs Hne. pose proof (scrape_frame _ _ _ _ _ _ Hs) as (_ & Hc & _).
  eexists. split; [by apply (main_nonempty _ _ channels self' w1)|].
  rewrite save_to_m3u_text, save_to_file_text. cbn [write_file console].
  rewrite print_summary_console, Hc.
  split; [done|]. split; [apply summary_lines_length|].
  intros i c Hi Hlook. unfold summary_lines.
  rewrite lookup_app_r by (cbn [length]; lia). cbn [length].
  replace (S i - 1)%nat with i by lia.
  rewrite lookup_app_l.
  - rewrite list_lookup_imap, lookup_take_lt by done. by rewrite Hlook.
  - rewrite length_imap, length_take. apply lookup_lt_Some in Hlook. lia.
Qed.

(** X12.  A run of [main] makes between one and four requests, all to the
    fixed address, with timeouts 10, 15, 20 and 25 in that order; printing
    and writing add none. *)
Theorem main_requests (E : env) (w : world) :
  ∃ w' n,
    main E w = Some w' ∧
    requests w' = requests w ++ attempts main_url 10 n ∧
    (1 ≤ n)%nat ∧ (n ≤ 4)%nat.
Proof.
  destruct (scrape_facts E (AceStreamScraper_default main_url) w)
    as (chs & self' & w1 & n & Heq & Hreq & Hn & Hn1 & _).
  assert (H1 : (1 ≤ n)%nat) by (apply Hn1; simpl; lia).
  assert (H4 : (n ≤ 4)%nat) by (simpl in Hn; lia).
  destruct chs as [|c chs].
  - exists (print w1 (str "No channels found")), n.
    split; [by apply (main_empty _ _ self' w1)|]. by split.
  - eexists _, n. split; [by apply (main_nonempty _ _ (c :: chs) self' w1)|].
    rewrite save_to_m3u_text, save_to_file_text. cbn [write_file requests].
    by rewrite print_summary_requests.
Qed.

(** ** The lines of the files written from a [scrape] result *)

Lemma well_formed_lines (p : text) channels :
  newline ∉ p → Forall well_formed channels →
  Forall (λ l, newline ∉ l)
    (str "#EXTM3U" ::
     flat_map (λ c : channel, [str "#EXTINF:-1," ++ c.2; p ++ c.1]) channels).
Proof.
  intros Hp Hch. constructor; [by apply (bool_decide_unpack _)|].
  induction Hch as [|[channel_id name] channels [Hid Hname] _ IH]; [constructor|].
  cbn [flat_map app fst snd] in *.
  repeat constructor; [| |done]; rewrite not_elem_of_app; split; try done.
  - by apply (bool_decide_unpack _).
  - by apply token_no_newline.
Qed.

Lemma flat_map_pairs_length {A B} (f g : A → B) l :
  length (flat_map (λ x, [f x; g x]) l) = (2 * length l)%nat.
Proof. induction l as [|x l IH]; simpl; [done|]. rewrite IH. lia. Qed.

(** X13.  In both files written from the channels that a [scrape] call
    returned, every channel takes exactly two lines: split at the newlines,
    the text is the header, the two lines of each channel in order, and the
    empty piece after the last newline. *)
Theorem scraped_playlist_lines (E : env) (self : scraper) (w : world)
    (channels : list channel) (self' : scraper) (w1 : world) (filename : text) :
  scrape E self w = Some (channels, self', w1) →
  ∃ legacy native,
    files (save_to_file self' channels filename w1) !! filename = Some legacy ∧
    files (save_to_m3u self' channels filename w1) !! filename = Some native ∧
    split nl legacy = playlist_lines legacy_uri channels ++ [[]] ∧
    split nl native = playlist_lines native_uri channels ++ [[]] ∧
    length (split nl legacy) = (2 + 2 * length channels)%nat.
Proof.
  intros Hs.
  destruct (scrape_facts E self w)
    as (chs & s' & w' & n & Heq & _ & _ & _ & _ & _ & _ & _ & _ & _ & _ & _ & Hwf).
  rewrite Hs in Heq. injection Heq as <- <- <-.
  rewrite save_to_file_text, save_to_m3u_text. cbn [write_file files].
  eexists _, _. rewrite !lookup_insert_eq. split; [done|]. split; [done|].
  assert (Hl : split nl (unlines (playlist_lines legacy_uri channels)) =
               playlist_lines legacy_uri channels ++ [[]]).
  { apply split_unlines. unfold playlist_lines, legacy_uri.
    apply well_formed_lines; [|done]. by apply (bool_decide_unpack _). }
  split; [exact Hl|]. split.
  - apply split_unlines. unfold playlist_lines, native_uri.
    apply well_formed_lines; [|done]. by apply (bool_decide_unpack _).
  - rewrite Hl, length_app. unfold playlist_lines. cbn [length].
    rewrite flat_map_pairs_length. lia.
Qed.

(** ** Instances of the further properties *)

Lemma first_marked_script_wins_witness :
  (∀ s', Some s' ∈ [None; Some (str "var a = 1;")] →
     ¬ contains (str "const linksData") s') ∧
  contains (str "const linksData") sample_script ∧
  extract_from_script (AceStreamScraper_default main_url)
    ([None; Some (str "var a = 1;")] ++ Some sample_script :: quoted_soup) =
  extract_from_script (AceStreamScraper_default main_url) [Some sample_script].
Proof.
  assert (H1 : ∀ s', Some s' ∈ [None; Some (str "var a = 1;")] →
     ¬ contains (str "const linksData") s').
  { intros s' Hin. apply search_Lit_None.
    apply elem_of_cons in Hin as [Hin|Hin]; [discriminate|].
    apply elem_of_cons in Hin as [Hin|Hin]; [|by apply elem_of_nil in Hin].
    injection Hin as ->. vm_compute. reflexivity. }
  assert (H2 : contains (str "const linksData") sample_script).
  { exists [], (drop 15 sample_script). vm_compute. reflexivity. }
  split; [exact H1|]. split; [exact H2|].
  exact (first_marked_script_wins (AceStreamScraper_default main_url)
           [None; Some (str "var a = 1;")] quoted_soup sample_script H1 H2).
Defined.

Lemma json_text_shape_witness :
  find_json_text quoted_soup = Some quoted_json ∧
  ∃ script pre s1 s2 body s3 post,
    Some script ∈ quoted_soup ∧
    script =
      pre ++ str "const linksData" ++ s1 ++ str "=" ++ s2 ++
      quoted_json ++ str ";" ++ post ∧
    quoted_json = str "{" ++ body ++ str "}" ++ s3 ∧
    spaces s1 ∧ spaces s2 ∧ spaces s3.
Proof.
  assert (H : find_json_text quoted_soup = Some quoted_json)
    by (vm_compute; reflexivity).
  split; [exact H|]. exact (json_text_shape quoted_soup quoted_json H).
Defined.

Lemma well_formed_record_matched_witness :
  spaces [] ∧ spaces (str " ") ∧ token (str "x1") ∧
  (dquote ∉ str "Two") ∧ (newline ∉ str "Two") ∧
  ∃ m,
    match_at record_re
      (head_text [] (str " ") ++ str "Two" ++
       tail_text (str " ") (str " ") (str "x1") [] ++ str "] }") = Some m ∧
    record_of_match m = Some (str "x1", str "Two") ∧
    rest m = str "] }" ∧
    finditer record_re
      (head_text [] (str " ") ++ str "Two" ++
       tail_text (str " ") (str " ") (str "x1") [] ++ str "] }") =
      m :: finditer record_re (str "] }").
Proof.
  assert (H0 : spaces []) by constructor.
  assert (H1 : spaces (str " ")) by (repeat constructor).
  assert (Ht : token (str "x1")) by (split; [discriminate|repeat constructor]).
  assert (Hq : dquote ∉ str "Two") by (apply (bool_decide_unpack _); vm_compute; exact I).
  assert (Hn : newline ∉ str "Two") by (apply (bool_decide_unpack _); vm_compute; exact I).
  split; [exact H0|]. split; [exact H1|]. split; [exact Ht|].
  split; [exact Hq|]. split; [exact Hn|].
  exact (well_formed_record_matched [] (str " ") (str "Two") (str " ") (str " ")
           (str "x1") [] (str "] }") H0 H1 H1 H1 H0 Ht Hq Hn).
Defined.

Lemma main_console_summary_witness :
  scrape sample_env (AceStreamScraper_default main_url) empty_world =
    Some (sample_channels,
          from_option (λ r, r.1.2) (AceStreamScraper_default main_url)
            (scrape sample_env (AceStreamScraper_default main_url) empty_world),
          from_option (λ r, r.2) empty_world
            (scrape sample_env (AceStreamScraper_default main_url) empty_world)) ∧
  sample_channels ≠ [] ∧
  ∃ w',
    main sample_env empty_world = Some w' ∧
    console w' = console empty_world ++ summary_lines sample_channels ∧
    length (summary_lines sample_channels) =
      (1 + length sample_channels `min` 10 +
       if (10 <? length sample_channels)%nat then 1 else 0)%nat ∧
    (∀ i (c : channel), (i < 10)%nat → sample_channels !! i = Some c →
       summary_lines sample_channels !! S i =
         Some (decimal (S i) ++ str ". " ++ c.2 ++ str ": acestream://" ++ c.1)).
Proof.
  assert (H1 : scrape sample_env (AceStreamScraper_default main_url) empty_world =
    Some (sample_channels,
          from_option (λ r, r.1.2) (AceStreamScraper_default main_url)
            (scrape sample_env (AceStreamScraper_default main_url) empty_world),
          from_option (λ r, r.2) empty_world
            (scrape sample_env (AceStreamScraper_default main_url) empty_world)))
    by (vm_compute; reflexivity).
  assert (H2 : sample_channels ≠ []) by discriminate.
  split; [exact H1|]. split; [exact H2|].
  exact (main_console_summary sample_env empty_world sample_channels _ _ H1 H2).
Defined.

Lemma scraped_playlist_lines_witness :
  scrape sample_env (AceStreamScraper_default main_url) empty_world =
    Some (sample_channels,
          from_option (λ r, r.1.2) (AceStreamScraper_default main_url)
            (scrape sample_env (AceStreamScraper_default main_url) empty_world),
          from_option (λ r, r.2) empty_world
            (scrape sample_env (AceStreamScraper_default main_url) empty_world)) ∧
  ∃ legacy native,
    files (save_to_file
             (from_option (λ r, r.1.2) (AceStreamScraper_default main_url)
                (scrape sample_env (AceStreamScraper_default main_url) empty_world))
             sample_channels channels_txt
             (from_option (λ r, r.2) empty_world
                (scrape sample_env (AceStreamScraper_default main_url) empty_world)))
      !! channels_txt = Some legacy ∧
    files (save_to_m3u
             (from_option (λ r, r.1.2) (AceStreamScraper_default main_url)
                (scrape sample_env (AceStreamScraper_default main_url) empty_world))
             sample_channels channels_txt
             (from_option (λ r, r.2) empty_world
                (scrape sample_env (AceStreamScraper_default main_url) empty_world)))
      !! channels_txt = Some native ∧
    split nl legacy = playlist_lines legacy_uri sample_channels ++ [[]] ∧
    split nl native = playlist_lines native_uri sample_channels ++ [[]] ∧
    length (split nl legacy) = (2 + 2 * length sample_channels)%nat.
Proof.
  assert (H1 : scrape sample_env (AceStreamScraper_default main_url) empty_world =
    Some (sample_channels,
          from_option (λ r, r.1.2) (AceStreamScraper_default main_url)
            (scrape sample_env (AceStreamScraper_default main_url) empty_world),
          from_option (λ r, r.2) empty_world
            (scrape sample_env (AceStreamScraper_default main_url) empty_world)))
    by (vm_compute; reflexivity).
  split; [exact H1|].
  exact (scraped_playlist_lines sample_env (AceStreamScraper_default main_url)
           empty_world sample_channels _ _ channels_txt H1).
Defined.
